(** * NetRiskScanner: the scan-lifecycle controller [utils/nmap_runner.py]

    A shallow embedding of the [NmapRunner] class: the command builder as a
    function into an exception monad, and the controller (foreground calls
    [start_scan] / [stop_scan], the background [run_scan] thread and the
    spawned subprocess) as an executable interleaving machine. *)

From stdpp Require Import gmap strings list.
From Stdlib Require Import Ascii ZArith Lia.

Local Open Scope Z_scope.
Local Open Scope nat_scope.

(** ** Python values, exceptions and the string methods the module calls *)

Module Py.

(** The exception classes that occur in the module.  All of them derive
    from [Exception]. *)
Inductive exn_class :=
| ValueError | IndexError | KeyError | AttributeError
| OSError | UnicodeDecodeError.

Record exn := Exn { exn_cls : exn_class; exn_msg : string }.

(** [str(e)]. *)
Definition str_exn (e : exn) : string := exn_msg e.

Inductive result (A : Type) :=
| Ok (a : A)
| Raise (e : exn).
Global Arguments Ok {A} a.
Global Arguments Raise {A} e.

Global Instance result_ret : MRet result := fun A a => Ok a.
Global Instance result_bind : MBind result := fun A B f m =>
  match m with Ok a => f a | Raise e => Raise e end.

(** The values of an option dictionary that the development covers:
    [None], a [bool], an [int] or a [str]. *)
Inductive pyval :=
| PyNone
| PyBool (b : bool)
| PyInt (n : Z)
| PyStr (s : string).

Definition nonempty (s : string) : bool :=
  match s with EmptyString => false | String _ _ => true end.

(** Truth value testing, as [if v:] does it. *)
Definition truthy (v : pyval) : bool :=
  match v with
  | PyNone => false
  | PyBool b => b
  | PyInt n => negb (n =? 0)%Z
  | PyStr s => nonempty s
  end.

(** Truth value of an optional string argument ([None] or a [str]). *)
Definition truthy_str (o : option string) : bool :=
  match o with None => false | Some s => nonempty s end.

Definition type_name (v : pyval) : string :=
  match v with
  | PyNone => "NoneType" | PyBool _ => "bool"
  | PyInt _ => "int" | PyStr _ => "str"
  end.

Definition no_attribute (ty attr : string) : exn :=
  Exn AttributeError ("'" +:+ ty +:+ "' object has no attribute '" +:+ attr +:+ "'").

(** [d.get(k)]: [None] for a missing key. *)
Definition dict_get (d : gmap string pyval) (k : string) : pyval :=
  default PyNone (d !! k).

(** [d[k]]: [KeyError] for a missing key. *)
Definition dict_item (d : gmap string pyval) (k : string) : result pyval :=
  match d !! k with
  | Some v => Ok v
  | None => Raise (Exn KeyError ("'" +:+ k +:+ "'"))
  end.

(** [l[i]]. *)
Definition list_item (l : list string) (i : nat) : result string :=
  match l !! i with
  | Some x => Ok x
  | None => Raise (Exn IndexError "list index out of range")
  end.

Fixpoint string_drop (n : nat) (s : string) : string :=
  match n, s with
  | S n', String _ s' => string_drop n' s'
  | _, _ => s
  end.

(** [s.startswith(p)]. *)
Fixpoint startswith (p s : string) : bool :=
  match p, s with
  | EmptyString, _ => true
  | String a p', String b s' => Ascii.eqb a b && startswith p' s'
  | String _ _, EmptyString => false
  end.

(** The first occurrence of [sep] in [s], scanning from the left: the
    text before it and the text after it ([str.partition]). *)
Fixpoint find_sep (sep s : string) : option (string * string) :=
  if startswith sep s then Some (EmptyString, string_drop (String.length sep) s)
  else match s with
       | EmptyString => None
       | String c s' =>
           match find_sep sep s' with
           | Some (a, b) => Some (String c a, b)
           | None => None
           end
       end.

Fixpoint split_fuel (fuel : nat) (sep s : string) : list string :=
  match fuel with
  | O => [s]
  | S fuel' =>
      match find_sep sep s with
      | None => [s]
      | Some (a, b) => a :: split_fuel fuel' sep b
      end
  end.

(** [s.split(sep)] for a string [s]: the fields between the
    non-overlapping occurrences of [sep], found left to right.  Every cut
    removes at least one character, so [length s] cuts are enough. *)
Definition str_split (sep s : string) : result (list string) :=
  if nonempty sep then Ok (split_fuel (String.length s) sep s)
  else Raise (Exn ValueError "empty separator").

(** [v.split(sep)] for a dictionary value [v]. *)
Definition split (v : pyval) (sep : string) : result (list string) :=
  match v with
  | PyStr s => str_split sep s
  | _ => Raise (no_attribute (type_name v) "split")
  end.

(** Strings stand for Python [str] values in UTF-8: a character is one to
    four bytes, and the bytes below 128 are the characters below 128.

    [utf8 codes] is the string of the given bytes. *)
Definition utf8 (codes : list nat) : string :=
  String.string_of_list_ascii (map ascii_of_nat codes).

(** The characters for which [c.isspace()] holds, the ones [str.strip()]
    removes: U+0009..U+000D, U+001C..U+0020, U+0085, U+00A0, U+1680,
    U+2000..U+200A, U+2028, U+2029, U+202F, U+205F and U+3000. *)
Definition whitespace : list string :=
  map utf8
    [ [9]; [10]; [11]; [12]; [13]; [28]; [29]; [30]; [31]; [32];
      [194; 133]; [194; 160]; [225; 154; 128];
      [226; 128; 128]; [226; 128; 129]; [226; 128; 130]; [226; 128; 131];
      [226; 128; 132]; [226; 128; 133]; [226; 128; 134]; [226; 128; 135];
      [226; 128; 136]; [226; 128; 137]; [226; 128; 138];
      [226; 128; 168]; [226; 128; 169]; [226; 128; 175];
      [226; 129; 159]; [227; 128; 128] ].

(** [s[::-1]] on the bytes. *)
Fixpoint string_rev (s : string) : string :=
  match s with
  | EmptyString => EmptyString
  | String c s' => string_rev s' +:+ String c EmptyString
  end.

(** [s.endswith(p)]. *)
Definition endswith (p s : string) : bool :=
  startswith (string_rev p) (string_rev s).

(** [s] without the first of the strings [ws] it starts with, if any. *)
Fixpoint skip_one (ws : list string) (s : string) : option string :=
  match ws with
  | [] => None
  | w :: ws' =>
      if startswith w s then Some (string_drop (String.length w) s)
      else skip_one ws' s
  end.

(** Leading members of [ws] removed from [s], one after the other. *)
Fixpoint skip_all (fuel : nat) (ws : list string) (s : string) : string :=
  match fuel with
  | O => s
  | S fuel' =>
      match skip_one ws s with
      | Some r => skip_all fuel' ws r
      | None => s
      end
  end.

(** [s.lstrip()].  Every character removed is at least one byte, so
    [length s] removals are enough. *)
Definition lstrip (s : string) : string :=
  skip_all (String.length s) whitespace s.

(** [s.rstrip()]: in UTF-8 no character ends with the bytes of another
    one, so the characters at the end are found on the reversed bytes. *)
Definition rstrip (s : string) : string :=
  string_rev
    (skip_all (String.length s) (map string_rev whitespace) (string_rev s)).

(** [s.strip()]: whitespace removed at both ends. *)
Definition strip (s : string) : string := rstrip (lstrip s).

(** [sep.join(l)]. *)
Fixpoint join (sep : string) (l : list string) : string :=
  match l with
  | [] => EmptyString
  | x :: l' =>
      match l' with
      | [] => x
      | _ :: _ => x +:+ sep +:+ join sep l'
      end
  end.

End Py.
Import Py.

(** ** The command builder *)

(** [build_nmap_command], lines 20-49.  [base_command] is threaded through
    the appends; [target] and [port_range] are [None] or a [str]. *)
Definition build_nmap_command (target port_range : option string)
    (options : gmap string pyval) : result (list string) :=
  let base_command := ["nmap"] in
  base_command ←
    (if truthy (dict_get options "scan_type") then
       v ← dict_item options "scan_type";
       parts ← split v ": ";
       flag ← list_item parts 1;
       Ok (base_command ++ [flag])
     else Ok base_command);
  let base_command :=
    if truthy_str port_range
    then base_command ++ ["-p" +:+ default EmptyString port_range]
    else base_command in
  let base_command :=
    if truthy (dict_get options "service_scan")
    then base_command ++ ["-sV"] else base_command in
  let base_command :=
    if truthy (dict_get options "os_detection")
    then base_command ++ ["-O"] else base_command in
  let base_command :=
    if truthy (dict_get options "aggressive_scan")
    then base_command ++ ["-A"] else base_command in
  let base_command :=
    if truthy (dict_get options "verbose")
    then base_command ++ ["-v"] else base_command in
  let base_command :=
    if truthy (dict_get options "no_ping")
    then base_command ++ ["-Pn"] else base_command in
  if truthy_str target
  then Ok (base_command ++ [default EmptyString target])
  else Raise (Exn ValueError "Target cannot be empty.").

(** ** The controller as an interleaving machine *)

(** The subprocess behind a [Popen] object.  [p_written] is the history of
    the lines it wrote to its standard output, [p_pending] those still in
    the pipe; [p_owner] is the thread that spawned it. *)
Inductive proc_status := Running | Exited.

Record proc := Proc {
  p_cmd : list string;
  p_owner : nat;
  p_written : list string;
  p_pending : list string;
  p_sigterm : bool;
  p_status : proc_status
}.

(** Control points of one [run_scan] activation (lines 57-74). *)
Inductive pc :=
| PcStart                            (* line 58 *)
| PcSpawn                            (* lines 59-61 *)
| PcIter                             (* line 62, [self.scan_process.stdout] *)
| PcNext (p : nat)                   (* line 62, next line of the iterator *)
| PcBody (p : nat) (line : string)   (* lines 63 and 67 *)
| PcTerminate                        (* line 64, lines 78-80 *)
| PcTermWait (p : nat)               (* lines 81-86 *)
| PcStopped                          (* lines 65-66 *)
| PcWait                             (* line 68 *)
| PcFinal                            (* lines 69-70 *)
| PcExcept (e : exn)                 (* lines 71-72 *)
| PcCleanup (pending : option exn)   (* lines 73-74, 90-91 *)
| PcDone                             (* [run] returned *)
| PcCrashed (e : exn).               (* [run] left by an exception *)

Record thread := Thread { th_command : list string; th_pc : pc }.

(** [Thread.is_alive()]: [run] has not returned and was not left by an
    exception. *)
Definition running_pc (c : pc) : bool :=
  match c with PcDone | PcCrashed _ => false | _ => true end.

Definition is_alive (th : thread) : bool := running_pc (th_pc th).

(** The foreground context: idle, or inside [stop_scan], blocked in
    [wait(timeout=2)] on process [p] (line 81). *)
Inductive fg_state := FgIdle | FgStopWait (p : nat).

(** Who called [update_result_callback]. *)
Inductive origin := Fg | Bg (tid : nat).

(** The attributes of the [NmapRunner] object (lines 14-18) with the
    threads and processes they refer to, the foreground context, and the
    lines [update_result_callback] received. *)
Record sys := Sys {
  scan_thread : option nat;
  scan_process : option nat;
  stop_event : bool;
  threads : list thread;
  procs : list proc;
  fg : fg_state;
  log : list (origin * string)
}.

(** [__init__], lines 14-18. *)
Definition init : sys := Sys None None false [] [] FgIdle [].

Definition emit (o : origin) (line : string) (s : sys) : sys :=
  Sys (scan_thread s) (scan_process s) (stop_event s) (threads s) (procs s)
      (fg s) (log s ++ [(o, line)]).

Definition set_scan_thread (t : option nat) (s : sys) : sys :=
  Sys t (scan_process s) (stop_event s) (threads s) (procs s) (fg s) (log s).

Definition set_scan_process (p : option nat) (s : sys) : sys :=
  Sys (scan_thread s) p (stop_event s) (threads s) (procs s) (fg s) (log s).

Definition set_stop_event (b : bool) (s : sys) : sys :=
  Sys (scan_thread s) (scan_process s) b (threads s) (procs s) (fg s) (log s).

Definition set_threads (ts : list thread) (s : sys) : sys :=
  Sys (scan_thread s) (scan_process s) (stop_event s) ts (procs s) (fg s) (log s).

Definition set_procs (ps : list proc) (s : sys) : sys :=
  Sys (scan_thread s) (scan_process s) (stop_event s) (threads s) ps (fg s) (log s).

Definition set_fg (f : fg_state) (s : sys) : sys :=
  Sys (scan_thread s) (scan_process s) (stop_event s) (threads s) (procs s) f (log s).

Definition set_pc (tid : nat) (c : pc) (s : sys) : sys :=
  set_threads (alter (fun th => Thread (th_command th) c) tid (threads s)) s.

Definition proc_running (s : sys) (p : nat) : bool :=
  match procs s !! p with
  | Some pr => match p_status pr with Running => true | Exited => false end
  | None => false
  end.

Definition thread_alive (s : sys) (tid : nat) : bool :=
  match threads s !! tid with Some th => is_alive th | None => false end.

(** [Popen.terminate()]: the signal is sent; the process exits later. *)
Definition send_sigterm (p : nat) (s : sys) : sys :=
  set_procs (alter (fun pr => Proc (p_cmd pr) (p_owner pr) (p_written pr)
                                (p_pending pr) true (p_status pr)) p (procs s)) s.

(** [Popen.kill()]. *)
Definition kill (p : nat) (s : sys) : sys :=
  set_procs (alter (fun pr => Proc (p_cmd pr) (p_owner pr) (p_written pr)
                                (p_pending pr) (p_sigterm pr) Exited) p (procs s)) s.

(** What the environment does at a step: nothing special, an exception
    raised by the operating system call of that step, or the expiry of the
    two seconds of [wait(timeout=2)]. *)
Inductive env := Quiet | Fault (e : exn) | Timeout.

Inductive outcome := Returned | Raised (e : exn).

(** [cleanup_process], lines 90-91; also the [finally] of
    [terminate_scan_process], lines 85-86. *)
Definition cleanup_process (s : sys) : sys :=
  set_stop_event false (set_scan_process None s).

(** [terminate_scan_process] up to its blocking call: lines 78-81.  The
    result names the process whose exit [wait(timeout=2)] awaits, or is
    [None] when line 78 found no process. *)
Definition terminate_begin (s : sys) : sys * option nat :=
  match scan_process s with
  | Some p => (send_sigterm p s, Some p)
  | None => (s, None)
  end.

(** The rest of [terminate_scan_process], lines 81-86, once the wait on
    [p] is over: the process exited, or the timeout expired and line 83
    kills [self.scan_process].  Not enabled while [p] runs and the timeout
    has not expired. *)
Definition terminate_end (c : env) (p : nat) (s : sys) : option (sys * outcome) :=
  if proc_running s p then
    match c with
    | Timeout =>
        match scan_process s with
        | Some q => Some (cleanup_process (kill q s), Returned)
        | None => Some (cleanup_process s, Raised (no_attribute "NoneType" "kill"))
        end
    | _ => None
    end
  else
    match c with
    | Quiet => Some (cleanup_process s, Returned)
    | _ => None
    end.

Inductive flow := Goto (c : pc) | Throw (e : exn).

(** One step of the [run_scan] activation [tid], at its control point. *)
Definition run_scan_step (tid : nat) (c : env) (th : thread) (s : sys)
    : option (sys * flow) :=
  match th_pc th, c with
  | PcStart, Quiet =>
      Some (emit (Bg tid) ("Starting scan: " +:+ join " " (th_command th)) s,
            Goto PcSpawn)
  | PcSpawn, Quiet =>
      let p := length (procs s) in
      Some (set_scan_process (Some p)
              (set_procs (procs s ++ [Proc (th_command th) tid [] [] false Running]) s),
            Goto PcIter)
  | PcSpawn, Fault e => Some (s, Throw e)
  | PcIter, Quiet =>
      match scan_process s with
      | Some p => Some (s, Goto (PcNext p))
      | None => Some (s, Throw (no_attribute "NoneType" "stdout"))
      end
  | PcNext p, Quiet =>
      pr ← procs s !! p;
      match p_pending pr with
      | line :: rest =>
          Some (set_procs (<[p := Proc (p_cmd pr) (p_owner pr) (p_written pr)
                                    rest (p_sigterm pr) (p_status pr)]> (procs s)) s,
                Goto (PcBody p line))
      | [] =>
          match p_status pr with
          | Exited => Some (s, Goto PcWait)
          | Running => None
          end
      end
  | PcNext p, Fault e => Some (s, Throw e)
  | PcBody p line, Quiet =>
      if stop_event s then Some (s, Goto PcTerminate)
      else Some (emit (Bg tid) (strip line) s, Goto (PcNext p))
  | PcTerminate, Quiet =>
      match terminate_begin s with
      | (s', Some q) => Some (s', Goto (PcTermWait q))
      | (s', None) => Some (s', Goto PcStopped)
      end
  | PcTermWait q, _ =>
      match terminate_end c q s with
      | Some (s', Returned) => Some (s', Goto PcStopped)
      | Some (s', Raised e) => Some (s', Throw e)
      | None => None
      end
  | PcStopped, Quiet =>
      Some (emit (Bg tid) "Scan stopped by user." s, Goto (PcCleanup None))
  | PcWait, Quiet =>
      match scan_process s with
      | Some p => if proc_running s p then None else Some (s, Goto PcFinal)
      | None => Some (s, Throw (no_attribute "NoneType" "wait"))
      end
  | PcFinal, Quiet =>
      if stop_event s then Some (s, Goto (PcCleanup None))
      else Some (emit (Bg tid) "Scan completed successfully." s,
                 Goto (PcCleanup None))
  | PcExcept e, Quiet =>
      Some (emit (Bg tid) ("Error: " +:+ str_exn e) s, Goto (PcCleanup None))
  | PcCleanup pending, Quiet =>
      Some (cleanup_process s,
            match pending with None => Goto PcDone | Some e => Throw e end)
  | _, _ => None
  end.

(** The [try] statement of [run_scan]: an exception raised in its body is
    caught by line 71; one raised in the [except] clause runs the [finally]
    clause and then leaves [run_scan]. *)
Definition handle (from : pc) (f : flow) : pc :=
  match f with
  | Goto c => c
  | Throw e =>
      match from with
      | PcExcept _ => PcCleanup (Some e)
      | PcCleanup _ | PcDone | PcCrashed _ => PcCrashed e
      | _ => PcExcept e
      end
  end.

Definition bg_step (tid : nat) (c : env) (s : sys) : option sys :=
  th ← threads s !! tid;
  '(s', f) ← run_scan_step tid c th s;
  Some (set_pc tid (handle (th_pc th) f) s').

(** The test of line 101: [self.scan_thread and self.scan_thread.is_alive()]. *)
Definition session_active (s : sys) : bool :=
  match scan_thread s with Some t => thread_alive s t | None => false end.

(** [start_scan], lines 101-107.  An exception of the builder leaves the
    call before anything was changed. *)
Definition start_scan (target port_range : option string)
    (options : gmap string pyval) (s : sys) : sys * outcome :=
  if session_active s
  then (emit Fg "A scan is already in progress. Please wait." s, Returned)
  else
    match build_nmap_command target port_range options with
    | Raise e => (s, Raised e)
    | Ok command =>
        let s := set_stop_event false s in
        let tid := length (threads s) in
        (set_scan_thread (Some tid)
           (set_threads (threads s ++ [Thread command PcStart]) s), Returned)
    end.

(** [stop_scan], lines 113-117, up to the blocking wait inside
    [terminate_scan_process]. *)
Definition stop_scan (s : sys) : sys :=
  if match scan_process s with Some p => proc_running s p | None => false end
  then
    let s := set_stop_event true s in
    match terminate_begin s with
    | (s', Some q) => set_fg (FgStopWait q) s'
    | (s', None) => s'
    end
  else emit Fg "No active scan to stop." s.

(** The events of the interleaving.  A call that does not block is one
    step.  A blocking call (the next line of the stream, [wait]) is not
    enabled while it blocks, and the code that leads to a wait is one step up
    to the wait (lines 78-81, lines 113-115), so that the other context runs
    while [wait(timeout=2)] is pending.  The callback appends to [log] and
    returns. *)
Inductive event :=
| CallStart (target port_range : option string) (options : gmap string pyval)
| CallStop
| FgResume (c : env)
| BgStep (tid : nat) (c : env)
| ProcWrite (pid : nat) (line : string)
| ProcExit (pid : nat).

(** One atomic step of the whole system; [None] when the event is not
    enabled in [s].  The foreground makes one call at a time. *)
Definition step (ev : event) (s : sys) : option sys :=
  match ev with
  | CallStart target port_range options =>
      match fg s with
      | FgIdle => Some (fst (start_scan target port_range options s))
      | FgStopWait _ => None
      end
  | CallStop =>
      match fg s with
      | FgIdle => Some (stop_scan s)
      | FgStopWait _ => None
      end
  | FgResume c =>
      match fg s with
      | FgStopWait q =>
          '(s', _) ← terminate_end c q s;
          Some (set_fg FgIdle s')
      | FgIdle => None
      end
  | BgStep tid c => bg_step tid c s
  | ProcWrite pid line =>
      pr ← procs s !! pid;
      match p_status pr with
      | Running =>
          Some (set_procs (<[pid := Proc (p_cmd pr) (p_owner pr)
                                      (p_written pr ++ [line])
                                      (p_pending pr ++ [line])
                                      (p_sigterm pr) Running]> (procs s)) s)
      | Exited => None
      end
  | ProcExit pid =>
      pr ← procs s !! pid;
      match p_status pr with
      | Running =>
          Some (set_procs (<[pid := Proc (p_cmd pr) (p_owner pr) (p_written pr)
                                      (p_pending pr) (p_sigterm pr) Exited]>
                             (procs s)) s)
      | Exited => None
      end
  end.

Fixpoint run (evs : list event) (s : sys) : option sys :=
  match evs with
  | [] => Some s
  | ev :: evs' => s' ← step ev s; run evs' s'
  end.

Definition reachable (s : sys) : Prop := ∃ evs, run evs init = Some s.

(** The lines thread [tid] passed to the callback, in order. *)
Definition session_log (tid : nat) (s : sys) : list string :=
  omap (fun '(o, line) => match o with
                          | Bg t => if decide (t = tid) then Some line else None
                          | Fg => None
                          end) (log s).

(** ** The specification's view of the built command *)

(** [sep] occurs in [s]. *)
Definition contains (sep s : string) : Prop := ∃ a b, s = a +:+ sep +:+ b.

Abbreviation no_sep s := (¬ contains ": " s).

(** Section 3 of the specification: the option flags in their fixed order. *)
Definition option_flags : list (string * string) :=
  [ ("service_scan", "-sV"); ("os_detection", "-O"); ("aggressive_scan", "-A");
    ("verbose", "-v"); ("no_ping", "-Pn") ].

Definition spec_option_args (options : gmap string pyval) : list string :=
  flat_map (fun '(k, f) => if truthy (dict_get options k) then [f] else [])
           option_flags.

Definition spec_port_args (port_range : option string) : list string :=
  match port_range with
  | Some r => if nonempty r then ["-p" +:+ r] else []
  | None => []
  end.

(** The argument contributed by [scan_type]: none when it is unset or
    falsy; for a string of the form [label: flag], possibly followed by
    further [": "]-separated fields, the [flag] field. *)
Inductive scan_type_args (options : gmap string pyval) : list string → Prop :=
| scan_type_unset :
    truthy (dict_get options "scan_type") = false →
    scan_type_args options []
| scan_type_flag label flag tail :
    options !! "scan_type" = Some (PyStr (label +:+ ": " +:+ flag +:+ tail)) →
    no_sep label → no_sep flag →
    (tail = EmptyString ∨ ∃ more, tail = ": " +:+ more) →
    scan_type_args options [flag].

(** The line [run_scan] emits first (line 58). *)
Definition starting (command : list string) : string :=
  "Starting scan: " +:+ join " " command.

(** ** Invariants of the controller *)

(** Only the thread [scan_thread] refers to can be alive. *)
Definition alive_is_current (s : sys) : Prop :=
  ∀ tid, thread_alive s tid = true → scan_thread s = Some tid.

(** Control points at which an exception is on its way out of [run_scan]. *)
Definition escaping (c : pc) : Prop :=
  match c with PcCleanup (Some _) | PcCrashed _ => True | _ => False end.

Definition no_escape (s : sys) : Prop :=
  ∀ tid th, threads s !! tid = Some th → ¬ escaping (th_pc th).

Definition completed_line : string := "Scan completed successfully.".



(** A string made of members of [ws], one after the other; [blank]: a
    string of whitespace characters only. *)
Inductive made_of (ws : list string) : string → Prop :=
| made_of_nil : made_of ws EmptyString
| made_of_cons w s : w ∈ ws → made_of ws s → made_of ws (w +:+ s).

Definition blank (s : string) : Prop := made_of whitespace s.

(** The reader of a thread is past the last line of process [p]: it waits
    on the pipe of [p], or has left the loop without the stop branch. *)
Definition stopped_line : string := "Scan stopped by user.".

Definition past_last_line (p : nat) (c : pc) : Prop :=
  match c with
  | PcNext q => q = p
  | PcWait | PcFinal | PcExcept _ | PcCleanup _ | PcDone | PcCrashed _ => True
  | _ => False
  end.

Definition pipe_empty (p : nat) (s : sys) : Prop :=
  ∃ pr, procs s !! p = Some pr ∧ p_pending pr = [].

Definition no_more_output (tid p : nat) (s : sys) : Prop :=
  pipe_empty p s ∧
  (∃ th, threads s !! tid = Some th ∧ past_last_line p (th_pc th)) ∧
  stopped_line ∉ session_log tid s.

Definition writes_to (p : nat) (ev : event) : bool :=
  match ev with
  | ProcWrite q _ => bool_decide (q = p)
  | _ => false
  end.

(** ** Concrete inputs *)

Definition nl : string := String "010" EmptyString.

Definition syn_options : gmap string pyval :=
  <["scan_type" := PyStr "TCP SYN: -sS"]> (<["service_scan" := PyBool true]> ∅).

(** A [scan_type] without the [": "] separator. *)
Definition bare_options : gmap string pyval := <["scan_type" := PyStr "SYN"]> ∅.

(** A scan of one output line that ends by itself. *)
Definition normal_trace (line : string) : list event :=
  [ CallStart (Some "10.0.0.5") None ∅;
    BgStep 0 Quiet; BgStep 0 Quiet; BgStep 0 Quiet;
    ProcWrite 0 line; ProcExit 0;
    BgStep 0 Quiet; BgStep 0 Quiet;
    BgStep 0 Quiet; BgStep 0 Quiet; BgStep 0 Quiet; BgStep 0 Quiet ].

(** A scan stopped while the reader waits for the next line: the process
    wrote one line, [stop_scan] runs to its end (the process exits within
    the two seconds), then the reader sees the end of the stream. *)
Definition stop_trace : list event :=
  [ CallStart (Some "10.0.0.5") None ∅;
    BgStep 0 Quiet; BgStep 0 Quiet; BgStep 0 Quiet;
    ProcWrite 0 ("a" +:+ nl);
    BgStep 0 Quiet; BgStep 0 Quiet;
    CallStop; ProcExit 0; FgResume Quiet;
    BgStep 0 Quiet; BgStep 0 Quiet; BgStep 0 Quiet; BgStep 0 Quiet ].

(** The same stop, with the reader reaching line 68 before [stop_scan]
    clears the attributes and line 69 after. *)
Definition stop_trace_late_clear : list event :=
  [ CallStart (Some "10.0.0.5") None ∅;
    BgStep 0 Quiet; BgStep 0 Quiet; BgStep 0 Quiet;
    ProcWrite 0 ("a" +:+ nl);
    BgStep 0 Quiet; BgStep 0 Quiet;
    CallStop; ProcExit 0;
    BgStep 0 Quiet; BgStep 0 Quiet;
    FgResume Quiet;
    BgStep 0 Quiet; BgStep 0 Quiet ].

(** The only way to the stopped message: a line arrives while
    [stop_scan] is still inside its wait. *)
Definition stop_trace_line_in_window : list event :=
  [ CallStart (Some "10.0.0.5") None ∅;
    BgStep 0 Quiet; BgStep 0 Quiet; BgStep 0 Quiet;
    ProcWrite 0 ("a" +:+ nl);
    BgStep 0 Quiet; BgStep 0 Quiet;
    ProcWrite 0 ("b" +:+ nl);
    CallStop;
    BgStep 0 Quiet; BgStep 0 Quiet; BgStep 0 Quiet;
    ProcExit 0;
    BgStep 0 Quiet; BgStep 0 Quiet; BgStep 0 Quiet;
    FgResume Quiet ].



(** The state in which thread 0 is about to spawn its process. *)
Definition spawning_state : sys :=
  default init (run [CallStart (Some "10.0.0.5") None ∅; BgStep 0 Quiet] init).

(** The state in which thread 0 is about to run its [finally] clause. *)
Definition cleanup_state : sys :=
  default init (run (take 11 (normal_trace ("up" +:+ nl))) init).

Definition spawn_failure : exn :=
  Exn OSError "[Errno 2] No such file or directory: 'nmap'".

(** ** Further notions for the builder *)

(** Lines 30-32 on their own: [base_command] after the [scan_type] test. *)
Definition scan_type_part (options : gmap string pyval) : result (list string) :=
  if truthy (dict_get options "scan_type") then
    v ← dict_item options "scan_type";
    parts ← split v ": ";
    flag ← list_item parts 1;
    Ok (["nmap"] ++ [flag])
  else Ok ["nmap"].

(** The keys [build_nmap_command] looks up. *)
Definition recognised_options : list string :=
  [ "scan_type"; "service_scan"; "os_detection"; "aggressive_scan";
    "verbose"; "no_ping" ].

Definition index_error : exn := Exn IndexError "list index out of range".
Definition empty_target_error : exn := Exn ValueError "Target cannot be empty.".

(** Option sets for the examples. *)
Definition flag_options : gmap string pyval :=
  <["scan_type" := PyBool true]> ∅.

Definition noisy_options : gmap string pyval :=
  <["timing" := PyStr "T4"]> syn_options.

(** ** The sessions of every interleaving *)

(** The line that closes a session, if any. *)
Definition closing (t : list string) : Prop :=
  t = [] ∨ t = [stopped_line] ∨ t = [completed_line] ∨
  ∃ e, t = ["Error: " +:+ str_exn e].

(** Thread [tid] has spawned no process; or none of its processes was read. *)
Definition unspawned (s : sys) (tid : nat) : Prop :=
  ∀ p pr, procs s !! p = Some pr → p_owner pr ≠ tid.

Definition untouched (s : sys) (tid : nat) : Prop :=
  ∀ p pr, procs s !! p = Some pr → p_owner pr = tid →
          p_written pr = p_pending pr.

(** The reader of thread [tid] is attached to its process [p]: it has
    delivered the lines [xs], holds [held], and the rest is in the pipe. *)
Definition reading (s : sys) (tid : nat) (th : thread) (p : nat)
    (held : list string) : Prop :=
  ∃ pr xs, procs s !! p = Some pr ∧ p_owner pr = tid ∧
           p_written pr = xs ++ held ++ p_pending pr ∧
           session_log tid s = starting (th_command th) :: map strip xs.

(** [xs] is a prefix of what a process of thread [tid] wrote. *)
Definition delivered (s : sys) (tid : nat) (xs : list string) : Prop :=
  xs = [] ∨
  ∃ p pr rest, procs s !! p = Some pr ∧ p_owner pr = tid ∧
               p_written pr = xs ++ rest.

(** [xs] is all that a process of thread [tid] wrote, and it has exited. *)
Definition all_delivered (s : sys) (tid : nat) (xs : list string) : Prop :=
  ∃ p pr, procs s !! p = Some pr ∧ p_owner pr = tid ∧
          p_status pr = Exited ∧ p_pending pr = [] ∧ p_written pr = xs.

Definition session_inv (s : sys) (tid : nat) (th : thread) : Prop :=
  let L := session_log tid s in
  let hd := starting (th_command th) in
  match th_pc th with
  | PcStart => L = [] ∧ unspawned s tid
  | PcSpawn => L = [hd] ∧ unspawned s tid
  | PcIter => L = [hd] ∧ untouched s tid
  | PcNext p => reading s tid th p []
  | PcBody p line => reading s tid th p [line]
  | PcWait | PcFinal => ∃ xs, L = hd :: map strip xs ∧ all_delivered s tid xs
  | PcTerminate | PcTermWait _ | PcStopped | PcExcept _ =>
      ∃ xs, L = hd :: map strip xs ∧ delivered s tid xs
  | PcCleanup _ | PcDone | PcCrashed _ =>
      ∃ xs t, L = hd :: map strip xs ++ t ∧ closing t ∧ delivered s tid xs ∧
              (t = [completed_line] → all_delivered s tid xs)
  end.

(** [scan_process] refers to a process of a live thread. *)
Definition handle_inv (s : sys) : Prop :=
  ∀ p, scan_process s = Some p →
       ∃ pr, procs s !! p = Some pr ∧ thread_alive s (p_owner pr) = true.

Definition owners_bound (s : sys) : Prop :=
  ∀ p pr, procs s !! p = Some pr → p_owner pr < length (threads s).

Definition log_bound (s : sys) : Prop :=
  ∀ tid, length (threads s) ≤ tid → session_log tid s = [].

Definition sound (s : sys) : Prop :=
  alive_is_current s ∧ handle_inv s ∧ owners_bound s ∧ log_bound s ∧
  ∀ tid th, threads s !! tid = Some th → session_inv s tid th.

(** How a step changes the processes.  [actor] is the thread that steps,
    if one does: it alone takes lines out of a pipe or adds a process, and
    only of its own.  Otherwise a process keeps its owner, grows at the end
    of what it wrote and of its pipe, and stays exited once it has. *)
Definition procs_evolve (actor : option nat) (ps ps' : list proc) : Prop :=
  (∀ p pr, ps !! p = Some pr →
     ∃ pr', ps' !! p = Some pr' ∧ p_owner pr' = p_owner pr ∧
            p_cmd pr' = p_cmd pr ∧
            (Some (p_owner pr) ≠ actor →
             ∃ ls, p_written pr' = p_written pr ++ ls ∧
                   p_pending pr' = p_pending pr ++ ls ∧
                   (p_status pr = Exited → ls = [] ∧ p_status pr' = Exited))) ∧
  (∀ p pr', ps' !! p = Some pr' →
     (∃ pr, ps !! p = Some pr) ∨ Some (p_owner pr') = actor).

Definition actor (ev : event) : option nat :=
  match ev with BgStep t _ => Some t | _ => None end.

(** The foreground waits inside [stop_scan] only for the process
    [scan_process] refers to, and only while no thread is before its
    spawn. *)
Definition stop_inv (s : sys) : Prop :=
  ∀ p, fg s = FgStopWait p →
       (∀ q, scan_process s = Some q → q = p) ∧
       (∀ tid th, threads s !! tid = Some th →
                  th_pc th ≠ PcStart ∧ th_pc th ≠ PcSpawn).

(** Every command of a thread or process came out of the builder. *)
Definition built (command : list string) : Prop :=
  ∃ target port_range options,
    build_nmap_command target port_range options = Ok command.

Definition commands_built (s : sys) : Prop :=
  (∀ tid th, threads s !! tid = Some th → built (th_command th)) ∧
  (∀ p pr, procs s !! p = Some pr →
           ∃ th, threads s !! p_owner pr = Some th ∧ p_cmd pr = th_command th).

(** A thread spawns at most one process. *)
Definition owns_once (s : sys) : Prop :=
  ∀ p q pr pr', procs s !! p = Some pr → procs s !! q = Some pr' →
                p_owner pr = p_owner pr' → p = q.

(** The lines the foreground calls passed to the callback. *)
Definition fg_log (s : sys) : list string :=
  omap (fun '(o, line) => match o with Fg => Some line | Bg _ => None end)
       (log s).

(** States of the example runs. *)
Definition stopped_state : sys := default init (run stop_trace init).

(** The foreground inside the wait of [stop_scan]. *)
Definition stop_wait_state : sys := default init (run (take 8 stop_trace) init).

(** Thread 0 at line 69 of a scan that ended by itself. *)
Definition final_state : sys :=
  default init (run (take 10 (normal_trace ("up" +:+ nl))) init).

(** A second start and a stop while thread 0 has not spawned yet. *)
Definition busy_state : sys :=
  default init (run [ CallStart (Some "10.0.0.5") None ∅;
                      CallStart (Some "10.0.0.6") None ∅; CallStop ] init).

(** ** Facts about the string methods *)

Section StringFacts.

Lemma app_cons c (a b : string) : String c a +:+ b = String c (a +:+ b).
Proof. reflexivity. Qed.

Lemma app_empty_l (b : string) : EmptyString +:+ b = b.
Proof. reflexivity. Qed.

Lemma app_assoc_str (a b c : string) : (a +:+ b) +:+ c = a +:+ b +:+ c.
Proof. induction a as [|d a IH]; [done|]. rewrite !app_cons. by f_equal. Qed.

Lemma app_empty_r (a : string) : a +:+ EmptyString = a.
Proof. induction a as [|d a IH]; [done|]. rewrite app_cons. by f_equal. Qed.

Lemma startswith_cons a p b s :
  startswith (String a p) (String b s) = Ascii.eqb a b && startswith p s.
Proof. reflexivity. Qed.

Lemma prefix_app (p r : string) : startswith p (p +:+ r) = true.
Proof.
  induction p as [|c p IH]; [done|].
  rewrite app_cons. simpl. by rewrite Ascii.eqb_refl.
Qed.

Lemma prefix_drop (p s : string) :
  startswith p s = true → s = p +:+ string_drop (String.length p) s.
Proof.
  revert s. induction p as [|c p IH]; intros s H; [by destruct s|].
  destruct s as [|d s]; [done|]. simpl in H.
  apply andb_prop in H as [Hc H]. apply Ascii.eqb_eq in Hc as ->.
  rewrite app_cons. simpl. f_equal. by apply IH.
Qed.

Lemma drop_app (p r : string) : string_drop (String.length p) (p +:+ r) = r.
Proof. induction p as [|c p IH]; [by destruct r|]. by rewrite app_cons. Qed.

Lemma contains_cons sep c s : contains sep s → contains sep (String c s).
Proof. intros (a & b & ->). by exists (String c a), b. Qed.

Lemma contains_app_r sep a s : contains sep s → contains sep (a +:+ s).
Proof. induction a as [|c a IH]; [done|]. intros. by apply contains_cons, IH. Qed.

Lemma find_sep_sound sep s a b :
  find_sep sep s = Some (a, b) → s = a +:+ sep +:+ b.
Proof.
  revert a b. induction s as [|c s IH]; intros a b;
    unfold find_sep; fold find_sep.
  - destruct (startswith sep EmptyString) eqn:Hp; [|done].
    intros [= <- <-]. apply prefix_drop in Hp. by rewrite app_empty_l.
  - destruct (startswith sep (String c s)) eqn:Hp.
    + intros [= <- <-]. apply prefix_drop in Hp. by rewrite app_empty_l.
    + destruct (find_sep sep s) as [[a' b']|]; [|done].
      intros [= <- <-]. rewrite app_cons. f_equal. by apply IH.
Qed.

Lemma find_sep_complete sep s :
  contains sep s → ∃ a b, find_sep sep s = Some (a, b).
Proof.
  intros (a & b & ->). induction a as [|c a (x & y & IH)].
  - rewrite app_empty_l. exists EmptyString, b.
    destruct sep as [|d sep]; [by destruct b|].
    rewrite app_cons. unfold find_sep; fold find_sep.
    by rewrite <-app_cons, prefix_app, drop_app.
  - rewrite app_cons. unfold find_sep; fold find_sep. rewrite IH.
    destruct (startswith sep _); eauto.
Qed.

Lemma find_sep_none sep s : ¬ contains sep s → find_sep sep s = None.
Proof.
  intros Hn. destruct (find_sep sep s) as [[a b]|] eqn:H; [|done].
  destruct Hn. exists a, b. by apply find_sep_sound.
Qed.

Lemma not_contains_empty sep : nonempty sep = true → ¬ contains sep EmptyString.
Proof.
  intros Hsep (x & y & H). destruct x as [|c x].
  - destruct sep as [|d sep]; [done|]. by rewrite app_empty_l, app_cons in H.
  - by rewrite app_cons in H.
Qed.

(** [find_sep] returns the leftmost occurrence. *)
Lemma find_sep_leftmost sep s a b :
  nonempty sep = true → find_sep sep s = Some (a, b) → ¬ contains sep a.
Proof.
  intros Hsep. revert a b. induction s as [|c s IH]; intros a b;
    unfold find_sep; fold find_sep.
  - destruct (startswith sep EmptyString); [|done].
    intros [= <- <-]. by apply not_contains_empty.
  - destruct (startswith sep (String c s)) eqn:Hp.
    + intros [= <- <-]. by apply not_contains_empty.
    + destruct (find_sep sep s) as [[a' b']|] eqn:Hf; [|done].
      intros [= <- <-] (x & y & H).
      destruct x as [|d x].
      * rewrite app_empty_l in H. apply find_sep_sound in Hf.
        rewrite Hf, <-app_cons, H in Hp.
        by rewrite app_assoc_str, prefix_app in Hp.
      * rewrite app_cons in H. injection H as -> ->.
        eapply IH; [done|]. by exists x, y.
Qed.

(** The separator [": "] does not overlap itself: behind a field without
    separator, the first occurrence is the one that follows the field. *)
Lemma find_sep_field a b :
  no_sep a → find_sep ": " (a +:+ ": " +:+ b) = Some (a, b).
Proof.
  induction a as [|c a IH]; intros Hn; [reflexivity|].
  rewrite app_cons.
  assert (startswith ": " (String c (a +:+ ": " +:+ b)) = false) as Hp.
  { rewrite startswith_cons.
    destruct (Ascii.eqb_spec ":" c) as [<-|]; [|done].
    destruct a as [|d a]; [done|]. rewrite app_cons, startswith_cons.
    destruct (Ascii.eqb_spec " " d) as [<-|]; [|done].
    destruct Hn. by exists EmptyString, a. }
  unfold find_sep; fold find_sep. rewrite Hp, IH; [done|].
  intros H. by apply Hn, contains_cons.
Qed.

Lemma str_length_app (a b : string) :
  String.length (a +:+ b) = String.length a + String.length b.
Proof. induction a as [|c a IH]; [done|]. rewrite app_cons. simpl. by rewrite IH. Qed.

Lemma split_no_sep n sep s : ¬ contains sep s → split_fuel n sep s = [s].
Proof. intros H. destruct n; [done|]. simpl. by rewrite find_sep_none. Qed.

(** The second field of a [label: flag ...] string is [flag]. *)
Lemma split_second_field label flag tail :
  no_sep label → no_sep flag →
  (tail = EmptyString ∨ ∃ more, tail = ": " +:+ more) →
  let s := label +:+ ": " +:+ flag +:+ tail in
  split_fuel (String.length s) ": " s !! 1 = Some flag.
Proof.
  intros Hl Hf Ht s. subst s.
  rewrite !str_length_app.
  replace (String.length label + (String.length ": " + _))
    with (S (S (String.length label + String.length (flag +:+ tail))))
    by (rewrite str_length_app; simpl; lia).
  cbn [split_fuel]. rewrite find_sep_field by done.
  destruct Ht as [->|[more ->]].
  - rewrite app_empty_r. by rewrite find_sep_none.
  - by rewrite find_sep_field.
Qed.

(** More fuel than the length of the string changes nothing. *)
Lemma split_fuel_enough sep n s :
  nonempty sep = true → String.length s ≤ n →
  split_fuel n sep s = split_fuel (String.length s) sep s.
Proof.
  intros Hsep. revert s.
  induction (lt_wf n) as [n _ IH]. intros s Hn.
  destruct n as [|n].
  { destruct s; [|simpl in Hn; lia]. done. }
  destruct s as [|c s].
  { simpl. destruct sep; done. }
  cbn [split_fuel String.length].
  destruct (find_sep sep (String c s)) as [[a b]|] eqn:Hf; [|done].
  f_equal. apply find_sep_sound in Hf.
  assert (String.length b ≤ String.length s) as Hb.
  { apply (f_equal String.length) in Hf. rewrite !str_length_app in Hf.
    destruct sep; [done|]. simpl in Hf. lia. }
  simpl in Hn.
  rewrite (IH n ltac:(lia) b ltac:(lia)).
  by rewrite (IH (String.length s) ltac:(lia) b ltac:(lia)).
Qed.

End StringFacts.

(** ** The command builder *)

Section BuildFacts.

Implicit Types (target port_range : option string).
Implicit Types (options : gmap string pyval).

Lemma nonempty_app_sep (a b : string) : nonempty (a +:+ ": " +:+ b) = true.
Proof. by destruct a. Qed.

Lemma dict_get_lookup options k v : options !! k = Some v → dict_get options k = v.
Proof. unfold dict_get. by intros ->. Qed.

(** Lines 31-32 when the flag can be extracted. *)
Lemma scan_type_step options fl :
  scan_type_args options fl →
  (if truthy (dict_get options "scan_type") then
     v ← dict_item options "scan_type";
     parts ← split v ": ";
     flag ← list_item parts 1;
     Ok (["nmap"] ++ [flag])
   else Ok ["nmap"]) = Ok (["nmap"] ++ fl).
Proof.
  intros [Hf | label flag tail Hs Hl Hfl Ht].
  - by rewrite Hf.
  - rewrite (dict_get_lookup _ _ _ Hs). unfold dict_item. rewrite Hs.
    cbn [truthy]. rewrite nonempty_app_sep. cbn [mbind result_bind split str_split nonempty].
    unfold list_item. by rewrite split_second_field.
Qed.

(** The builder in closed form, on the inputs where lines 31-32 do not
    raise. *)
Lemma build_closed_form target port_range options fl :
  scan_type_args options fl →
  build_nmap_command target port_range options =
    if truthy_str target
    then Ok (["nmap"] ++ fl ++ spec_port_args port_range
               ++ spec_option_args options ++ [default EmptyString target])
    else Raise (Exn ValueError "Target cannot be empty.").
Proof.
  intros H. unfold build_nmap_command.
  rewrite (scan_type_step _ _ H). cbn [mbind result_bind].
  unfold spec_option_args, option_flags, spec_port_args. cbn [flat_map].
  destruct port_range as [[|c r]|]; cbn [truthy_str nonempty default];
    destruct (truthy (dict_get options "service_scan")),
             (truthy (dict_get options "os_detection")),
             (truthy (dict_get options "aggressive_scan")),
             (truthy (dict_get options "verbose")),
             (truthy (dict_get options "no_ping"));
    destruct (match target with Some s => nonempty s | None => false end);
    by rewrite <-?(assoc_L (++)).
Qed.

(** Every truthy string with a separator has the [label: flag] shape of
    [scan_type_args]: the relation covers all inputs on which lines 31-32
    return. *)
Lemma scan_type_args_complete options s :
  options !! "scan_type" = Some (PyStr s) → contains ": " s →
  ∃ flag, scan_type_args options [flag].
Proof.
  intros Hs Hc.
  destruct (find_sep_complete _ _ Hc) as (label & rest & Hf).
  pose proof (find_sep_leftmost ": " _ _ _ eq_refl Hf) as Hl.
  apply find_sep_sound in Hf as ->.
  destruct (find_sep ": " rest) as [[flag more]|] eqn:Hr.
  - pose proof (find_sep_leftmost ": " _ _ _ eq_refl Hr) as Hfl.
    apply find_sep_sound in Hr as ->.
    exists flag. eapply (scan_type_flag _ label flag (": " +:+ more)); eauto.
  - exists rest. eapply (scan_type_flag _ label rest EmptyString); eauto.
    + by rewrite app_empty_r.
    + intros Hc'. apply find_sep_complete in Hc' as (a & b & Hc').
      by rewrite Hc' in Hr.
Qed.

End BuildFacts.

(** ** The controller: what a step leaves alone *)

Section Frame.

Implicit Types (s : sys) (th : thread) (tid p : nat) (c : env).

Lemma terminate_end_frame c p s s' o :
  terminate_end c p s = Some (s', o) →
  threads s' = threads s ∧ scan_thread s' = scan_thread s ∧
  fg s' = fg s ∧ log s' = log s ∧
  scan_process s' = None ∧ stop_event s' = false.
Proof.
  unfold terminate_end. intros H.
  destruct (proc_running s p), c, (scan_process s); by simplify_eq.
Qed.

Lemma run_scan_step_frame tid c th s s' f :
  run_scan_step tid c th s = Some (s', f) →
  threads s' = threads s ∧ scan_thread s' = scan_thread s ∧ fg s' = fg s.
Proof.
  unfold run_scan_step. intros H.
  destruct (th_pc th) as [| | |p|p l| |q| | | |e|[e|]| |e], c; simplify_eq/=;
    try done.
  - by destruct (scan_process s); simplify_eq.
  - destruct (procs s !! p) as [pr|]; simplify_eq/=.
    destruct (p_pending pr), (p_status pr); by simplify_eq.
  - by destruct (stop_event s); simplify_eq.
  - unfold terminate_begin in H. by destruct (scan_process s); simplify_eq.
  - destruct (terminate_end Quiet q s) as [[s1 [|e]]|] eqn:Ht; simplify_eq;
      by apply terminate_end_frame in Ht as (? & ? & ? & _).
  - destruct (terminate_end (Fault e) q s) as [[s1 [|e']]|] eqn:Ht; simplify_eq;
      by apply terminate_end_frame in Ht as (? & ? & ? & _).
  - destruct (terminate_end Timeout q s) as [[s1 [|e']]|] eqn:Ht; simplify_eq;
      by apply terminate_end_frame in Ht as (? & ? & ? & _).
  - destruct (scan_process s) as [p|]; [|by simplify_eq].
    by destruct (proc_running s p); simplify_eq.
  - by destruct (stop_event s); simplify_eq.
Qed.

(** A thread that has left [run] takes no step. *)
Lemma run_scan_step_alive tid c th s r :
  run_scan_step tid c th s = Some r → is_alive th = true.
Proof. unfold run_scan_step, is_alive. by destruct (th_pc th), c. Qed.

Lemma bg_step_inv tid c s s' :
  bg_step tid c s = Some s' →
  ∃ th s1 f, threads s !! tid = Some th ∧
             run_scan_step tid c th s = Some (s1, f) ∧
             s' = set_pc tid (handle (th_pc th) f) s1.
Proof.
  unfold bg_step. intros H.
  destruct (threads s !! tid) as [th|] eqn:Hth; simplify_eq/=.
  destruct (run_scan_step tid c th s) as [[s1 f]|] eqn:Hr; simplify_eq/=.
  by exists th, s1, f.
Qed.

Lemma stop_scan_frame s :
  threads (stop_scan s) = threads s ∧ scan_thread (stop_scan s) = scan_thread s.
Proof.
  unfold stop_scan, terminate_begin. simpl.
  destruct (scan_process s) as [p|]; [|done].
  by destruct (proc_running s p).
Qed.

Lemma lookup_set_pc_eq tid pc' th s :
  threads s !! tid = Some th →
  threads (set_pc tid pc' s) !! tid = Some (Thread (th_command th) pc').
Proof. intros H. simpl. by rewrite list_lookup_alter_eq, H. Qed.

Lemma thread_alive_set_pc s tid tid' pc' :
  thread_alive (set_pc tid pc' s) tid' =
    if decide (tid = tid')
    then match threads s !! tid with
         | Some _ => running_pc pc'
         | None => false
         end
    else thread_alive s tid'.
Proof.
  unfold thread_alive, set_pc. simpl. case_decide as Hd.
  - subst. rewrite list_lookup_alter_eq. by destruct (threads s !! tid').
  - by rewrite list_lookup_alter_ne.
Qed.

End Frame.

(** ** Invariants of every reachable state *)

Section Reachable.

Implicit Types (s : sys) (th : thread) (tid p : nat) (c : env).

Lemma run_app evs1 evs2 s :
  run (evs1 ++ evs2) s = s' ← run evs1 s; run evs2 s'.
Proof.
  revert s. induction evs1 as [|ev evs1 IH]; intros s; [done|].
  simpl. destruct (step ev s); [apply IH|done].
Qed.

(** Invariants are proved step by step. *)
Lemma reachable_ind (P : sys → Prop) :
  P init →
  (∀ ev s s', P s → step ev s = Some s' → P s') →
  ∀ s, reachable s → P s.
Proof.
  intros Hinit Hstep s [evs Hrun]. revert Hrun.
  generalize init Hinit. clear Hinit.
  induction evs as [|ev evs IH]; intros s0 H0 Hrun; simplify_eq/=; [done|].
  destruct (step ev s0) as [s1|] eqn:Hs; simplify_eq/=. eauto.
Qed.

Lemma reachable_step ev s s' : reachable s → step ev s = Some s' → reachable s'.
Proof.
  intros [evs Hr] Hs. exists (evs ++ [ev]).
  rewrite run_app, Hr. simpl. by rewrite Hs.
Qed.

Lemma step_threads ev s s' :
  step ev s = Some s' →
  (scan_thread s' = scan_thread s ∧
   ((threads s' = threads s) ∨
    (∃ tid th c, ev = BgStep tid c ∧ threads s !! tid = Some th ∧
                 is_alive th = true ∧ ∃ f s1,
                 run_scan_step tid c th s = Some (s1, f) ∧
                 threads s' = alter (fun t => Thread (th_command t)
                                               (handle (th_pc th) f)) tid (threads s))))
  ∨ (∃ command, session_active s = false ∧
       scan_thread s' = Some (length (threads s)) ∧
       threads s' = threads s ++ [Thread command PcStart]).
Proof.
  destruct ev as [target pr opts| |c|tid c|pid line|pid]; simpl; intros H.
  - destruct (fg s); simplify_eq. unfold start_scan.
    destruct (session_active s) eqn:Ha; [by left; split; [|left]|].
    destruct (build_nmap_command target pr opts) as [command|e].
    + right. by exists command.
    + by left; split; [|left].
  - destruct (fg s); simplify_eq.
    destruct (stop_scan_frame s) as [-> ->]. by left; split; [|left].
  - destruct (fg s) as [|q]; simplify_eq.
    destruct (terminate_end c q s) as [[s1 o]|] eqn:Ht; simplify_eq/=.
    apply terminate_end_frame in Ht as (-> & -> & _). by left; split; [|left].
  - apply bg_step_inv in H as (th & s1 & f & Hth & Hr & ->).
    pose proof (run_scan_step_alive _ _ _ _ _ Hr) as Hal.
    pose proof Hr as Hr'.
    apply run_scan_step_frame in Hr as (Ht & Hst & _). simpl.
    left. split; [done|]. right. exists tid, th, c. rewrite Ht. eauto 10.
  - destruct (procs s !! pid) as [pr|]; simplify_eq/=.
    destruct (p_status pr); simplify_eq. by left; split; [|left].
  - destruct (procs s !! pid) as [pr|]; simplify_eq/=.
    destruct (p_status pr); simplify_eq. by left; split; [|left].
Qed.

Lemma alive_is_current_step ev s s' :
  alive_is_current s → step ev s = Some s' → alive_is_current s'.
Proof.
  intros Hinv Hs tid. unfold thread_alive.
  destruct (step_threads _ _ _ Hs)
    as [[-> [->|(t & th & c & _ & Hth & Hal & f & s1 & _ & ->)]]
       |(command & Hact & -> & ->)].
  - apply Hinv.
  - intros H. apply Hinv. unfold thread_alive.
    destruct (decide (t = tid)) as [->|Hne].
    + by rewrite Hth.
    + by rewrite list_lookup_alter_ne in H.
  - destruct (decide (tid < length (threads s))) as [Hlt|Hge].
    + rewrite lookup_app_l by done. intros H.
      apply Hinv in H as Hc. unfold session_active in Hact.
      rewrite Hc in Hact. unfold thread_alive in Hact. congruence.
    + destruct (decide (tid = length (threads s))) as [->|]; [done|].
      rewrite lookup_ge_None_2; [done|]. rewrite length_app. simpl. lia.
Qed.

(** An exception leaves [run_scan] only through its [except] clause. *)
Lemma handle_no_escape tid c th s s1 f :
  ¬ escaping (th_pc th) →
  run_scan_step tid c th s = Some (s1, f) →
  ¬ escaping (handle (th_pc th) f).
Proof.
  unfold run_scan_step. intros Hne H.
  destruct (th_pc th) as [| | |p|p l| |q| | | |e|[e|]| |e], c; simplify_eq/=;
    try done; try (by destruct Hne).
  - by destruct (scan_process s); simplify_eq.
  - destruct (procs s !! p) as [pr|]; simplify_eq/=.
    destruct (p_pending pr), (p_status pr); by simplify_eq.
  - by destruct (stop_event s); simplify_eq.
  - by destruct (terminate_begin s) as [s' [q|]]; simplify_eq.
  - by destruct (terminate_end Quiet q s) as [[s' [|e]]|]; simplify_eq.
  - by destruct (terminate_end (Fault e) q s) as [[s' [|e']]|]; simplify_eq.
  - by destruct (terminate_end Timeout q s) as [[s' [|e']]|]; simplify_eq.
  - destruct (scan_process s) as [p|]; [|by simplify_eq].
    by destruct (proc_running s p); simplify_eq.
  - by destruct (stop_event s); simplify_eq.
Qed.

Lemma no_escape_step ev s s' :
  no_escape s → step ev s = Some s' → no_escape s'.
Proof.
  intros Hinv Hs tid th.
  destruct (step_threads _ _ _ Hs)
    as [[_ [->|(t & th0 & c & _ & Hth & Hal & f & s1 & Hr & ->)]]
       |(command & _ & _ & ->)].
  - apply Hinv.
  - destruct (decide (t = tid)) as [->|Hne].
    + rewrite list_lookup_alter_eq, Hth. intros [= <-]. simpl.
      eapply handle_no_escape; eauto.
    + rewrite list_lookup_alter_ne by done. apply Hinv.
  - intros [H|[_ H]]%lookup_app_Some; [by eapply Hinv|].
    apply list_lookup_singleton_Some in H as [_ <-]. intros [].
Qed.

Lemma reachable_alive_is_current s : reachable s → alive_is_current s.
Proof.
  apply reachable_ind; [by intros tid|]. intros. by eapply alive_is_current_step.
Qed.

Lemma reachable_no_escape s : reachable s → no_escape s.
Proof.
  apply reachable_ind; [by intros tid th|]. intros. by eapply no_escape_step.
Qed.

End Reachable.

(** ** The lines of one session *)

Section SessionLog.

Implicit Types (s : sys) (th : thread) (tid p : nat) (c : env).

Lemma session_log_emit tid o line s :
  session_log tid (emit o line s) =
    session_log tid s ++
      match o with
      | Bg t => if decide (t = tid) then [line] else []
      | Fg => []
      end.
Proof.
  unfold session_log. simpl. rewrite omap_app. f_equal. simpl.
  destruct o as [|t]; [done|]. by case_decide.
Qed.

Lemma session_log_emit_other tid tid' line s :
  tid' ≠ tid → session_log tid (emit (Bg tid') line s) = session_log tid s.
Proof.
  intros. rewrite session_log_emit. case_decide; [done|]. apply app_nil_r.
Qed.

Lemma session_log_emit_self tid line s :
  session_log tid (emit (Bg tid) line s) = session_log tid s ++ [line].
Proof. rewrite session_log_emit. by case_decide. Qed.

End SessionLog.

(** ** A stop request without further output *)

Section StopWithoutOutput.

Implicit Types (s : sys) (th : thread) (tid p : nat) (c : env).

Lemma lookup_alter_pending (f : proc → proc) (l : list proc) q p pr :
  (∀ x, p_pending (f x) = p_pending x) →
  l !! p = Some pr → p_pending pr = [] →
  ∃ pr', alter f q l !! p = Some pr' ∧ p_pending pr' = [].
Proof.
  intros Hf Hp He. rewrite list_lookup_alter. case_decide.
  - subst. rewrite Hp. simpl. eexists. split; [done|]. by rewrite Hf.
  - eauto.
Qed.

Lemma terminate_end_pipe c q s s' o p :
  terminate_end c q s = Some (s', o) → pipe_empty p s → pipe_empty p s'.
Proof.
  unfold terminate_end, pipe_empty. intros H (pr & Hp & He).
  destruct (proc_running s q), c, (scan_process s); simplify_eq/=; eauto.
  by eapply lookup_alter_pending.
Qed.

Lemma run_scan_step_pipe tid c th s s1 f p :
  run_scan_step tid c th s = Some (s1, f) → pipe_empty p s → pipe_empty p s1.
Proof.
  unfold run_scan_step, pipe_empty. intros H (pr & Hp & He).
  destruct (th_pc th) as [| | |q|q l| |q| | | |e|[e|]| |e], c; simplify_eq/=;
    eauto.
  - exists pr. split; [|done]. rewrite lookup_app_l; [done|].
    by eapply lookup_lt_Some.
  - destruct (scan_process s); simplify_eq; eauto.
  - destruct (procs s !! q) as [pr0|] eqn:Hq; simplify_eq/=.
    destruct (p_pending pr0) eqn:Hpe, (p_status pr0); simplify_eq/=; eauto.
    + exists pr. split; [|done]. rewrite list_lookup_insert_ne; [done|].
      intros ->. congruence.
    + exists pr. split; [|done]. rewrite list_lookup_insert_ne; [done|].
      intros ->. congruence.
  - destruct (stop_event s); simplify_eq; eauto.
  - unfold terminate_begin in H.
    destruct (scan_process s); simplify_eq/=; eauto.
    by eapply lookup_alter_pending.
  - destruct (terminate_end Quiet q s) as [[s' [|e]]|] eqn:Ht; simplify_eq;
      eapply terminate_end_pipe; unfold pipe_empty; eauto.
  - destruct (terminate_end (Fault e) q s) as [[s' [|e']]|] eqn:Ht; simplify_eq;
      eapply terminate_end_pipe; unfold pipe_empty; eauto.
  - destruct (terminate_end Timeout q s) as [[s' [|e']]|] eqn:Ht; simplify_eq;
      eapply terminate_end_pipe; unfold pipe_empty; eauto.
  - destruct (scan_process s) as [q|]; [|simplify_eq; eauto].
    destruct (proc_running s q); simplify_eq; eauto.
  - destruct (stop_event s); simplify_eq; eauto.
Qed.

(** Only a write of the process puts a line into its empty pipe. *)
Lemma pipe_empty_step ev s s' p :
  writes_to p ev = false → step ev s = Some s' →
  pipe_empty p s → pipe_empty p s'.
Proof.
  intros Hw Hs Hpipe.
  destruct ev as [target pr opts| |c|tid c|pid line|pid]; simpl in Hs.
  - destruct (fg s); simplify_eq. unfold start_scan.
    destruct (session_active s); [done|].
    by destruct (build_nmap_command target pr opts).
  - destruct (fg s); simplify_eq. unfold stop_scan, terminate_begin. simpl.
    destruct (scan_process s) as [q|]; [|done].
    destruct (proc_running s q); [|done].
    destruct Hpipe as (pr & Hp & He). unfold pipe_empty. simpl.
    by eapply lookup_alter_pending.
  - destruct (fg s) as [|q]; simplify_eq.
    destruct (terminate_end c q s) as [[s1 o]|] eqn:Ht; simplify_eq/=.
    by eapply (terminate_end_pipe _ _ _ _ _ _ Ht).
  - apply bg_step_inv in Hs as (th & s1 & f & Hth & Hr & ->).
    by eapply (run_scan_step_pipe _ _ _ _ _ _ _ Hr).
  - destruct Hpipe as (pr & Hp & He). unfold pipe_empty.
    destruct (procs s !! pid) as [pr0|] eqn:Hq; simplify_eq/=.
    destruct (p_status pr0); simplify_eq/=.
    apply bool_decide_eq_false in Hw.
    exists pr. by rewrite list_lookup_insert_ne.
  - destruct Hpipe as (pr & Hp & He). unfold pipe_empty.
    destruct (procs s !! pid) as [pr0|] eqn:Hq; simplify_eq/=.
    destruct (p_status pr0); simplify_eq/=.
    destruct (decide (pid = p)) as [->|Hne].
    + eexists. rewrite list_lookup_insert_eq by (by eapply lookup_lt_Some).
      split; [done|]. simpl. congruence.
    + exists pr. by rewrite list_lookup_insert_ne.
Qed.

Lemma run_scan_step_log tid c th s s1 f :
  run_scan_step tid c th s = Some (s1, f) →
  log s1 = log s ∨ ∃ line, log s1 = log s ++ [(Bg tid, line)].
Proof.
  unfold run_scan_step. intros H.
  destruct (th_pc th) as [| | |q|q l| |q| | | |e|[e|]| |e], c; simplify_eq/=;
    eauto.
  - destruct (scan_process s); simplify_eq; eauto.
  - destruct (procs s !! q) as [pr0|]; simplify_eq/=.
    destruct (p_pending pr0), (p_status pr0); simplify_eq/=; eauto.
  - destruct (stop_event s); simplify_eq/=; eauto.
  - unfold terminate_begin in H. destruct (scan_process s); simplify_eq/=; eauto.
  - destruct (terminate_end Quiet q s) as [[s' [|e]]|] eqn:Ht; simplify_eq;
      apply terminate_end_frame in Ht as (_ & _ & _ & -> & _); eauto.
  - destruct (terminate_end (Fault e) q s) as [[s' [|e']]|] eqn:Ht; simplify_eq;
      apply terminate_end_frame in Ht as (_ & _ & _ & -> & _); eauto.
  - destruct (terminate_end Timeout q s) as [[s' [|e']]|] eqn:Ht; simplify_eq;
      apply terminate_end_frame in Ht as (_ & _ & _ & -> & _); eauto.
  - destruct (scan_process s) as [q|]; [|simplify_eq; eauto].
    destruct (proc_running s q); simplify_eq; eauto.
  - destruct (stop_event s); simplify_eq/=; eauto.
Qed.

Lemma session_log_snoc tid o line s s' :
  log s' = log s ++ [(o, line)] →
  session_log tid s' = session_log tid (emit o line s).
Proof. unfold session_log. simpl. by intros ->. Qed.

(** The lines of thread [tid] grow only by its own steps. *)
Lemma session_log_other_step ev s s' tid :
  (∀ c, ev ≠ BgStep tid c) → step ev s = Some s' →
  session_log tid s' = session_log tid s.
Proof.
  intros Hev Hs.
  destruct ev as [target pr opts| |c|t c|pid line|pid]; simpl in Hs.
  - destruct (fg s); simplify_eq. unfold start_scan.
    destruct (session_active s).
    { simpl. by rewrite session_log_emit, app_nil_r. }
    by destruct (build_nmap_command target pr opts).
  - destruct (fg s); simplify_eq. unfold stop_scan, terminate_begin. simpl.
    destruct (scan_process s) as [q|].
    + destruct (proc_running s q); [done|].
      by rewrite session_log_emit, app_nil_r.
    + by rewrite session_log_emit, app_nil_r.
  - destruct (fg s) as [|q]; simplify_eq.
    destruct (terminate_end c q s) as [[s1 o]|] eqn:Ht; simplify_eq/=.
    apply terminate_end_frame in Ht as (_ & _ & _ & Hl & _).
    unfold session_log. simpl. by rewrite Hl.
  - apply bg_step_inv in Hs as (th & s1 & f & Hth & Hr & ->).
    change (session_log tid (set_pc _ _ s1)) with (session_log tid s1).
    destruct (run_scan_step_log _ _ _ _ _ _ Hr) as [Hl|[line Hl]].
    + unfold session_log. by rewrite Hl.
    + rewrite (session_log_snoc _ _ _ _ _ Hl).
      apply session_log_emit_other. intros ->. by eapply Hev.
  - destruct (procs s !! pid) as [pr0|]; simplify_eq/=.
    by destruct (p_status pr0); simplify_eq/=.
  - destruct (procs s !! pid) as [pr0|]; simplify_eq/=.
    by destruct (p_status pr0); simplify_eq/=.
Qed.

Lemma stopped_line_not_error (msg : string) : stopped_line ≠ "Error: " +:+ msg.
Proof. done. Qed.

(** With the pipe empty the reader does not enter the loop body again,
    and outside the body the stopped line is not emitted. *)
Lemma no_more_output_own_step tid c s s' p :
  no_more_output tid p s → bg_step tid c s = Some s' →
  (∃ th, threads s' !! tid = Some th ∧ past_last_line p (th_pc th)) ∧
  stopped_line ∉ session_log tid s'.
Proof.
  intros ((pr & Hp & He) & (th & Hth & Hpc) & Hlog) Hs.
  apply bg_step_inv in Hs as (th' & s1 & f & Hth' & Hr & ->).
  assert (th' = th) as -> by congruence.
  pose proof (run_scan_step_frame _ _ _ _ _ _ Hr) as (Ht & _).
  rewrite <-Ht in Hth.
  rewrite (lookup_set_pc_eq _ _ _ _ Hth).
  change (session_log tid (set_pc _ _ s1)) with (session_log tid s1).
  enough (past_last_line p (handle (th_pc th) f) ∧
          stopped_line ∉ session_log tid s1) as [? ?] by eauto.
  clear Hth Ht Hth'. unfold run_scan_step in Hr.
  destruct (th_pc th) as [| | |q|q l| |q| | | |e|[e|]| |e], c;
    try done; simpl in Hpc; try injection Hr as <- <-; try done.
  - subst q. rewrite Hp in Hr. simpl in Hr. rewrite He in Hr.
    destruct (p_status pr); [done|]. by injection Hr as <- <-.
  - destruct (scan_process s) as [q|]; [|by injection Hr as <- <-].
    destruct (proc_running s q); [done|]. by injection Hr as <- <-.
  - destruct (stop_event s); injection Hr as <- <-; [done|]. split; [done|].
    rewrite session_log_emit_self.
    by intros [?|?%list_elem_of_singleton]%elem_of_app.
  - split; [done|]. rewrite session_log_emit_self.
    intros [?|H%list_elem_of_singleton]%elem_of_app; [done|].
    by apply stopped_line_not_error in H.
Qed.

Lemma no_more_output_step ev s s' tid p :
  writes_to p ev = false → step ev s = Some s' →
  no_more_output tid p s → no_more_output tid p s'.
Proof.
  intros Hw Hs Hinv. split; [by eapply pipe_empty_step; [..|apply Hinv]|].
  assert ((∃ c, ev = BgStep tid c) ∨ (∀ c, ev ≠ BgStep tid c)) as [[c ->]|Hne].
  { destruct ev as [| | |t c| |]; try (by right).
    destruct (decide (t = tid)) as [->|]; [left; eauto|right; congruence]. }
  { by eapply no_more_output_own_step. }
  destruct Hinv as (_ & (th & Hth & Hpc) & Hlog). split.
  - exists th. split; [|done].
    destruct (step_threads _ _ _ Hs)
      as [[_ [->|(t & th0 & c & -> & _ & _ & f & s1 & _ & ->)]]
         |(command & _ & _ & ->)]; [done| |].
    + rewrite list_lookup_alter_ne; [done|]. intros ->. by eapply Hne.
    + rewrite lookup_app_l; [done|]. by eapply lookup_lt_Some.
  - by rewrite (session_log_other_step _ _ _ _ Hne Hs).
Qed.

(** After a stop request that finds the reader waiting on an empty pipe,
    no interleaving in which the process writes nothing more emits
    "Scan stopped by user.". *)
Lemma no_output_no_stopped_line evs s s' tid p :
  forallb (fun ev => negb (writes_to p ev)) evs = true →
  no_more_output tid p s → run evs s = Some s' →
  stopped_line ∉ session_log tid s'.
Proof.
  revert s. induction evs as [|ev evs IH]; intros s Hq Hinv Hr; simplify_eq/=.
  { apply Hinv. }
  apply andb_prop in Hq as [Hq1%negb_true_iff Hq2].
  destruct (step ev s) as [s1|] eqn:Hs; simplify_eq/=.
  eapply IH; [done| |done]. by eapply no_more_output_step.
Qed.

Lemma stop_trace_no_more_output :
  ∃ s, run (take 8 stop_trace) init = Some s ∧ no_more_output 0 0 s ∧
       stop_event s = true ∧ fg s = FgStopWait 0.
Proof.
  eexists. split; [by vm_compute|]. split; [|done].
  split; [by eexists|]. split; [by eexists|].
  vm_compute. intros H. repeat (apply elem_of_cons in H as [H|H]; [done|]).
  by apply elem_of_nil in H.
Qed.

(** However the stopped scan of [stop_trace] goes on after the stop
    request, it does not report the stop unless the process writes again. *)
Lemma stop_trace_never_reports_stop evs s' :
  forallb (fun ev => negb (writes_to 0 ev)) evs = true →
  run (take 8 stop_trace ++ evs) init = Some s' →
  stopped_line ∉ session_log 0 s'.
Proof.
  intros Hq Hr. rewrite run_app in Hr.
  destruct stop_trace_no_more_output as (s & Hs & Hinv & _).
  rewrite Hs in Hr. by eapply no_output_no_stopped_line.
Qed.

End StopWithoutOutput.

(** ** Single steps of the controller *)

Section Steps.

Implicit Types (s : sys) (th : thread) (tid p : nat) (c : env).

Lemma no_sep_check (x : string) : find_sep ": " x = None → no_sep x.
Proof. intros H (a & b & Hc)%find_sep_complete. congruence. Qed.

Lemma bg_step_at tid c th s s1 f :
  threads s !! tid = Some th →
  run_scan_step tid c th s = Some (s1, f) →
  bg_step tid c s = Some (set_pc tid (handle (th_pc th) f) s1).
Proof. unfold bg_step. intros -> H. simpl. by rewrite H. Qed.

(** The step that ends [run] is the [finally] clause. *)
Lemma last_step_is_cleanup tid c th s s1 f :
  run_scan_step tid c th s = Some (s1, f) →
  running_pc (handle (th_pc th) f) = false →
  s1 = cleanup_process s.
Proof.
  unfold run_scan_step. intros H.
  destruct (th_pc th) as [| | |p|p l| |q| | | |e|[e|]| |e], c; simplify_eq/=;
    try done.
  - by destruct (scan_process s); simplify_eq.
  - destruct (procs s !! p) as [pr|]; simplify_eq/=.
    destruct (p_pending pr), (p_status pr); by simplify_eq.
  - by destruct (stop_event s); simplify_eq.
  - by destruct (terminate_begin s) as [s' [q|]]; simplify_eq.
  - by destruct (terminate_end Quiet q s) as [[s' [|e]]|]; simplify_eq.
  - by destruct (terminate_end (Fault e) q s) as [[s' [|e']]|]; simplify_eq.
  - by destruct (terminate_end Timeout q s) as [[s' [|e']]|]; simplify_eq.
  - destruct (scan_process s) as [p|]; [|by simplify_eq].
    by destruct (proc_running s p); simplify_eq.
  - by destruct (stop_event s); simplify_eq.
Qed.

(** Success, cancellation and error all lead to the [finally] clause. *)
Lemma exit_paths_reach_cleanup tid th s :
  threads s !! tid = Some th →
  (th_pc th = PcFinal ∨ th_pc th = PcStopped ∨ ∃ e, th_pc th = PcExcept e) →
  ∃ s', bg_step tid Quiet s = Some s' ∧
        threads s' !! tid = Some (Thread (th_command th) (PcCleanup None)).
Proof.
  intros Hth Hpc. unfold bg_step. rewrite Hth. simpl. unfold run_scan_step.
  destruct Hpc as [->|[->|[e ->]]].
  - destruct (stop_event s); eexists; (split; [done|]);
      simpl; by rewrite list_lookup_alter_eq, Hth.
  - eexists; split; [done|]. simpl. by rewrite list_lookup_alter_eq, Hth.
  - eexists; split; [done|]. simpl. by rewrite list_lookup_alter_eq, Hth.
Qed.

End Steps.

(** ** The claims *)

(** C1 (fails on the code): a scan stopped through [stop_scan] while the
    reader waits for output.  [stop_scan] itself clears the stop event and
    the process handle (lines 85-86), so the reader, after the end of the
    stream, calls [wait] on [None]: the session's lines are the start line,
    the output line and an attribute error, and never the line
    "Scan stopped by user.". *)
Theorem stop_scan_loses_stopped_line :
  session_log 0 <$> run stop_trace init =
    Some [ "Starting scan: nmap 10.0.0.5"; "a";
           "Error: 'NoneType' object has no attribute 'wait'" ].
Proof. vm_compute. reflexivity. Qed.

(** With the reader between lines 68 and 69 when [stop_scan] clears the
    event, the stopped session even reports success. *)
Lemma stop_scan_then_completed_line :
  session_log 0 <$> run stop_trace_late_clear init =
    Some [ "Starting scan: nmap 10.0.0.5"; "a"; completed_line ].
Proof. vm_compute. reflexivity. Qed.

(** The stopped line needs an output line inside the wait of [stop_scan]. *)
Lemma stop_scan_line_in_window :
  session_log 0 <$> run stop_trace_line_in_window init =
    Some [ "Starting scan: nmap 10.0.0.5"; "a"; "Scan stopped by user." ].
Proof. vm_compute. reflexivity. Qed.

(** C2 (as stated, fails): with no session active and an empty target,
    [start_scan] raises the builder's [ValueError] to its caller and the
    callback receives nothing. *)
Lemma start_scan_raises_to_caller :
  session_active init = false ∧
  snd (start_scan (Some EmptyString) None ∅ init)
    = Raised (Exn ValueError "Target cannot be empty.") ∧
  log (fst (start_scan (Some EmptyString) None ∅ init)) = [].
Proof. by vm_compute. Qed.

(** C2 (amended): with no session active, an exception raised by the
    command builder leaves [start_scan] unchanged, towards the caller;
    the controller state is as before and nothing is emitted. *)
Theorem start_scan_propagates s target port_range options e :
  session_active s = false →
  build_nmap_command target port_range options = Raise e →
  start_scan target port_range options s = (s, Raised e).
Proof. unfold start_scan. by intros -> ->. Qed.

Lemma start_scan_propagates_witness :
  session_active init = false ∧
  build_nmap_command (Some EmptyString) None ∅
    = Raise (Exn ValueError "Target cannot be empty.") ∧
  start_scan (Some EmptyString) None ∅ init
    = (init, Raised (Exn ValueError "Target cannot be empty.")).
Proof.
  split; [reflexivity|]. split; [reflexivity|].
  apply (start_scan_propagates init (Some EmptyString) None ∅); reflexivity.
Defined.

(** C3 (as stated, fails): for a non-empty target and a [scan_type]
    without separator the builder returns no argument list. *)
Lemma build_bare_scan_type_returns_nothing :
  ¬ ∃ command,
      build_nmap_command (Some "10.0.0.5") None bare_options = Ok command.
Proof. intros [command H]. vm_compute in H. discriminate. Qed.

(** C3 (amended): for every non-empty target, optional port range and
    option set whose [scan_type], when truthy, is a string with the
    separator [": "], the builder returns ["nmap"], then the [scan_type]
    field that follows the first separator (up to the next separator or the
    end), then [-p<range>] for a non-empty port range, then [-sV], [-O],
    [-A], [-v], [-Pn] for exactly the truthy options in that order, then
    the target; and the example of the specification evaluates as given. *)
Theorem build_argument_order (target : string) port_range options fl :
  nonempty target = true →
  scan_type_args options fl →
  build_nmap_command (Some target) port_range options =
    Ok (["nmap"] ++ fl ++ spec_port_args port_range
          ++ spec_option_args options ++ [target])
  ∧ build_nmap_command (Some "10.0.0.5") (Some "20-80") syn_options =
      Ok ["nmap"; "-sS"; "-p20-80"; "-sV"; "10.0.0.5"].
Proof.
  intros Ht Hs. split; [|by vm_compute].
  rewrite (build_closed_form _ _ _ _ Hs). simpl. by rewrite Ht.
Qed.

Lemma build_argument_order_witness :
  nonempty "10.0.0.5" = true ∧
  scan_type_args syn_options ["-sS"] ∧
  build_nmap_command (Some "10.0.0.5") (Some "20-80") syn_options =
    Ok (["nmap"] ++ ["-sS"] ++ spec_port_args (Some "20-80")
          ++ spec_option_args syn_options ++ ["10.0.0.5"]).
Proof.
  assert (scan_type_args syn_options ["-sS"]) as Hs.
  { apply (scan_type_flag _ "TCP SYN" "-sS" EmptyString).
    - reflexivity.
    - apply no_sep_check. reflexivity.
    - apply no_sep_check. reflexivity.
    - left. reflexivity. }
  split; [reflexivity|]. split; [exact Hs|].
  apply (build_argument_order "10.0.0.5" (Some "20-80") syn_options ["-sS"]);
    [reflexivity|exact Hs].
Defined.

(** C4 (as stated, fails): with a null target and a [scan_type] without
    separator the builder fails with [IndexError], not with the
    [ValueError] of the empty target. *)
Lemma null_target_index_error :
  build_nmap_command None (Some "20-80") bare_options
    = Raise (Exn IndexError "list index out of range") ∧
  build_nmap_command None (Some "20-80") bare_options
    ≠ Raise (Exn ValueError "Target cannot be empty.").
Proof. split; [by vm_compute|]. intros H. vm_compute in H. discriminate. Qed.

(** C4 (amended): for every port range and every option set whose
    [scan_type] is falsy or a string with the separator [": "], the builder
    with an empty or null target fails with
    [ValueError("Target cannot be empty.")]. *)
Theorem build_empty_target target port_range options fl :
  target = None ∨ target = Some EmptyString →
  scan_type_args options fl →
  build_nmap_command target port_range options =
    Raise (Exn ValueError "Target cannot be empty.").
Proof.
  intros Ht Hs. rewrite (build_closed_form _ _ _ _ Hs).
  by destruct Ht as [-> | ->].
Qed.

Lemma build_empty_target_witness :
  (Some EmptyString = None ∨ Some EmptyString = Some EmptyString) ∧
  scan_type_args ∅ [] ∧
  build_nmap_command (Some EmptyString) (Some "20-80") ∅ =
    Raise (Exn ValueError "Target cannot be empty.").
Proof.
  assert (scan_type_args ∅ []) as Hs by (apply scan_type_unset; reflexivity).
  split; [right; reflexivity|]. split; [exact Hs|].
  apply (build_empty_target (Some EmptyString) (Some "20-80") ∅ []);
    [right; reflexivity|exact Hs].
Defined.

(** C5: in every reachable state at most one thread is alive; and while the
    thread [scan_thread] refers to is alive, [start_scan] returns after one
    call of the callback with "A scan is already in progress. Please wait.",
    with the threads, the processes and the attributes as they were. *)
Theorem one_session_at_a_time s :
  reachable s →
  (∀ t1 t2, thread_alive s t1 = true → thread_alive s t2 = true → t1 = t2) ∧
  (∀ target port_range options,
     session_active s = true →
     let r := start_scan target port_range options s in
     r = (emit Fg "A scan is already in progress. Please wait." s, Returned) ∧
     threads (fst r) = threads s ∧ procs (fst r) = procs s ∧
     scan_thread (fst r) = scan_thread s ∧
     scan_process (fst r) = scan_process s ∧
     log (fst r) = log s ++ [(Fg, "A scan is already in progress. Please wait.")]).
Proof.
  intros Hr. split.
  - intros t1 t2 H1 H2.
    apply reachable_alive_is_current in Hr.
    apply Hr in H1. apply Hr in H2. congruence.
  - intros target port_range options Hact. unfold start_scan.
    by rewrite Hact.
Qed.

Lemma one_session_at_a_time_witness :
  reachable spawning_state ∧
  session_active spawning_state = true ∧
  start_scan (Some "10.0.0.6") None ∅ spawning_state =
    (emit Fg "A scan is already in progress. Please wait." spawning_state,
     Returned).
Proof.
  assert (reachable spawning_state) as Hr.
  { exists [CallStart (Some "10.0.0.5") None ∅; BgStep 0 Quiet].
    vm_compute. reflexivity. }
  split; [exact Hr|]. split; [reflexivity|].
  apply (one_session_at_a_time spawning_state Hr). reflexivity.
Defined.

(** C6: when [scan_process] is [None] or refers to a process that has
    exited, [stop_scan] calls the callback once, with
    "No active scan to stop.", and leaves the process handle, the thread
    handle and the stop event as they were. *)
Theorem stop_without_active_scan s :
  scan_process s = None ∨
    (∃ p, scan_process s = Some p ∧ proc_running s p = false) →
  stop_scan s = emit Fg "No active scan to stop." s ∧
  scan_process (stop_scan s) = scan_process s ∧
  scan_thread (stop_scan s) = scan_thread s ∧
  stop_event (stop_scan s) = stop_event s ∧
  log (stop_scan s) = log s ++ [(Fg, "No active scan to stop.")].
Proof.
  intros H.
  assert (stop_scan s = emit Fg "No active scan to stop." s) as ->; [|done].
  unfold stop_scan. by destruct H as [-> | (p & -> & ->)].
Qed.

Lemma stop_without_active_scan_witness :
  (scan_process init = None ∨
     (∃ p, scan_process init = Some p ∧ proc_running init p = false)) ∧
  stop_scan init = emit Fg "No active scan to stop." init.
Proof.
  split; [left; reflexivity|].
  apply (stop_without_active_scan init). left. reflexivity.
Defined.


(** C8: the step by which a thread leaves [run_scan], on whatever path,
    sets [scan_process] to [None] and clears the stop event; after it no
    session is active, and [start_scan] with arguments the builder accepts
    starts a new thread instead of reporting a scan in progress. *)
Theorem cleanup_on_every_exit s tid c s' :
  reachable s →
  thread_alive s tid = true →
  bg_step tid c s = Some s' →
  thread_alive s' tid = false →
  scan_process s' = None ∧ stop_event s' = false ∧
  session_active s' = false ∧
  ∀ target port_range options command,
    build_nmap_command target port_range options = Ok command →
    start_scan target port_range options s' =
      (set_scan_thread (Some (length (threads s')))
         (set_threads (threads s' ++ [Thread command PcStart])
            (set_stop_event false s')), Returned).
Proof.
  intros Hr Hal Hs Hdead.
  apply reachable_alive_is_current in Hr.
  pose proof (Hr _ Hal) as Hcur.
  apply bg_step_inv in Hs as (th & s1 & f & Hth & Hstep & ->).
  rewrite thread_alive_set_pc in Hdead.
  pose proof (run_scan_step_frame _ _ _ _ _ _ Hstep) as (Ht & Hst & _).
  rewrite decide_True, Ht, Hth in Hdead by done.
  pose proof (last_step_is_cleanup _ _ _ _ _ _ Hstep Hdead) as ->.
  assert (session_active (set_pc tid (handle (th_pc th) f) (cleanup_process s))
          = false) as Hna.
  { unfold session_active. simpl scan_thread. rewrite Hcur.
    rewrite thread_alive_set_pc, decide_True by done.
    simpl threads. by rewrite Hth. }
  split_and!; try done.
  intros target port_range options command Hb.
  unfold start_scan. by rewrite Hna, Hb.
Qed.

Lemma cleanup_on_every_exit_witness :
  ∃ s',
    reachable cleanup_state ∧ thread_alive cleanup_state 0 = true ∧
    bg_step 0 Quiet cleanup_state = Some s' ∧ thread_alive s' 0 = false ∧
    scan_process s' = None ∧ stop_event s' = false ∧
    session_active s' = false.
Proof.
  assert (reachable cleanup_state) as Hr.
  { exists (take 11 (normal_trace ("up" +:+ nl))). vm_compute. reflexivity. }
  destruct (bg_step 0 Quiet cleanup_state) as [s'|] eqn:Hs;
    [|vm_compute in Hs; discriminate].
  assert (thread_alive s' 0 = false) as Hdead.
  { vm_compute in Hs. injection Hs as <-. reflexivity. }
  destruct (cleanup_on_every_exit cleanup_state 0 Quiet s' Hr eq_refl Hs Hdead)
    as (H1 & H2 & H3 & _).
  exists s'. by split_and!.
Defined.

(** C9: when spawning the process or reading its next line raises an
    exception [e], the thread's next steps pass "Error: <str(e)>" to the
    callback and run the [finally] clause: [run_scan] returns, with
    [scan_process] [None] and the stop event clear.  In no reachable state
    has an exception left [run_scan].  (The callback itself is taken not to
    raise.) *)
Theorem failure_is_reported s tid th e :
  reachable s →
  threads s !! tid = Some th →
  th_pc th = PcSpawn ∨ (∃ p, th_pc th = PcNext p) →
  (∃ s', run [BgStep tid (Fault e); BgStep tid Quiet; BgStep tid Quiet] s
           = Some s' ∧
         log s' = log s ++ [(Bg tid, "Error: " +:+ str_exn e)] ∧
         threads s' !! tid = Some (Thread (th_command th) PcDone) ∧
         scan_process s' = None ∧ stop_event s' = false) ∧
  (∀ t th' e', threads s !! t = Some th' → th_pc th' ≠ PcCrashed e').
Proof.
  intros Hr Hth Hpc. split.
  - set (s1 := set_pc tid (PcExcept e) s).
    set (s2 := set_pc tid (PcCleanup None)
                 (emit (Bg tid) ("Error: " +:+ str_exn e) s1)).
    set (s3 := set_pc tid PcDone (cleanup_process s2)).
    assert (run_scan_step tid (Fault e) th s = Some (s, Throw e)) as Hs0
      by (unfold run_scan_step; by destruct Hpc as [-> | [p ->]]).
    assert (handle (th_pc th) (Throw e) = PcExcept e) as Hh
      by (by destruct Hpc as [-> | [p ->]]).
    assert (bg_step tid (Fault e) s = Some s1) as H1
      by (by rewrite (bg_step_at _ _ _ _ _ _ Hth Hs0), Hh).
    assert (threads s1 !! tid = Some (Thread (th_command th) (PcExcept e)))
      as Hth1 by (by apply lookup_set_pc_eq).
    assert (bg_step tid Quiet s1 = Some s2) as H2
      by (by rewrite (bg_step_at tid Quiet _ s1
                        (emit (Bg tid) ("Error: " +:+ str_exn e) s1)
                        (Goto (PcCleanup None)) Hth1 eq_refl)).
    assert (threads s2 !! tid = Some (Thread (th_command th) (PcCleanup None)))
      as Hth2 by (by apply (lookup_set_pc_eq _ _ _ _ Hth1)).
    assert (bg_step tid Quiet s2 = Some s3) as H3
      by (by rewrite (bg_step_at tid Quiet _ s2 (cleanup_process s2)
                        (Goto PcDone) Hth2 eq_refl)).
    exists s3. split_and!; try done.
    + simpl. rewrite H1. simpl. rewrite H2. simpl. by rewrite H3.
    + by apply (lookup_set_pc_eq _ _ _ _ Hth2).
  - intros t th' e' Ht Hc. apply reachable_no_escape in Hr.
    apply (Hr _ _ Ht). by rewrite Hc.
Qed.

Lemma failure_is_reported_witness :
  ∃ s',
    reachable spawning_state ∧
    threads spawning_state !! 0 = Some (Thread ["nmap"; "10.0.0.5"] PcSpawn) ∧
    run [BgStep 0 (Fault spawn_failure); BgStep 0 Quiet; BgStep 0 Quiet]
        spawning_state = Some s' ∧
    log s' = log spawning_state
               ++ [(Bg 0, "Error: " +:+ str_exn spawn_failure)] ∧
    threads s' !! 0 = Some (Thread ["nmap"; "10.0.0.5"] PcDone).
Proof.
  assert (reachable spawning_state) as Hr.
  { exists [CallStart (Some "10.0.0.5") None ∅; BgStep 0 Quiet].
    vm_compute. reflexivity. }
  destruct (failure_is_reported spawning_state 0
              (Thread ["nmap"; "10.0.0.5"] PcSpawn) spawn_failure
              Hr eq_refl (or_introl eq_refl))
    as [(s' & H1 & H2 & H3 & _) _].
  exists s'. by split_and!.
Defined.

(** C10: when [scan_type] is a non-empty string without the separator
    [": "], the builder raises [IndexError], whatever the target and the
    port range. *)
Theorem build_scan_type_without_separator target port_range options x :
  options !! "scan_type" = Some (PyStr x) →
  nonempty x = true → no_sep x →
  build_nmap_command target port_range options =
    Raise (Exn IndexError "list index out of range").
Proof.
  intros Hs Hne Hn. unfold build_nmap_command, dict_item.
  rewrite (dict_get_lookup _ _ _ Hs), Hs. cbn [truthy]. rewrite Hne.
  cbn [mbind result_bind split str_split nonempty].
  by rewrite split_no_sep.
Qed.

Lemma build_scan_type_without_separator_witness :
  bare_options !! "scan_type" = Some (PyStr "SYN") ∧
  nonempty "SYN" = true ∧ no_sep "SYN" ∧
  build_nmap_command None (Some "20-80") bare_options =
    Raise (Exn IndexError "list index out of range").
Proof.
  assert (no_sep "SYN") as Hn by (apply no_sep_check; reflexivity).
  split; [reflexivity|]. split; [reflexivity|]. split; [exact Hn|].
  apply (build_scan_type_without_separator None (Some "20-80") bare_options "SYN");
    [reflexivity|reflexivity|exact Hn].
Defined.


(** ** Further properties of the command builder *)

Section BuildMore.

Implicit Types (target port_range : option string).
Implicit Types (options : gmap string pyval).

(** The builder, whatever the options: the [scan_type] part, then the
    flags, then the target test. *)
Lemma build_general_form target port_range options :
  build_nmap_command target port_range options =
    base ← scan_type_part options;
    if truthy_str target
    then Ok (base ++ spec_port_args port_range
               ++ spec_option_args options ++ [default EmptyString target])
    else Raise empty_target_error.
Proof.
  unfold build_nmap_command. fold (scan_type_part options).
  destruct (scan_type_part options) as [base|e]; [|done].
  cbn [mbind result_bind].
  unfold spec_option_args, option_flags, spec_port_args. cbn [flat_map].
  destruct port_range as [[|c r]|]; cbn [truthy_str nonempty default];
    destruct (truthy (dict_get options "service_scan")),
             (truthy (dict_get options "os_detection")),
             (truthy (dict_get options "aggressive_scan")),
             (truthy (dict_get options "verbose")),
             (truthy (dict_get options "no_ping"));
    destruct (match target with Some s => nonempty s | None => false end);
    by rewrite <-?(assoc_L (++)).
Qed.

(** What lines 30-32 can do. *)
Lemma scan_type_part_cases options :
  scan_type_part options = Ok ["nmap"] ∨
  (∃ flag, scan_type_part options = Ok ["nmap"; flag]) ∨
  scan_type_part options = Raise index_error ∨
  scan_type_part options = Raise (no_attribute "bool" "split") ∨
  scan_type_part options = Raise (no_attribute "int" "split").
Proof.
  unfold scan_type_part, dict_item.
  destruct (options !! "scan_type") as [v|] eqn:Hs.
  2:{ unfold dict_get. rewrite Hs. by left. }
  rewrite (dict_get_lookup _ _ _ Hs).
  destruct (truthy v) eqn:Hv; [|by left].
  cbn [mbind result_bind].
  destruct v as [|b|n|x]; try done; [eauto 6|eauto 6|].
  cbn [split str_split nonempty mbind result_bind]. unfold list_item.
  destruct (split_fuel (String.length x) ": " x !! 1) as [flag|]; eauto 6.
Qed.

Lemma spec_option_args_length options : length (spec_option_args options) ≤ 5.
Proof.
  unfold spec_option_args, option_flags. cbn [flat_map].
  destruct (truthy (dict_get options "service_scan")),
           (truthy (dict_get options "os_detection")),
           (truthy (dict_get options "aggressive_scan")),
           (truthy (dict_get options "verbose")),
           (truthy (dict_get options "no_ping")); simpl; lia.
Qed.

Lemma spec_port_args_length port_range : length (spec_port_args port_range) ≤ 1.
Proof. destruct port_range as [[|c r]|]; simpl; lia. Qed.

End BuildMore.

(** X1: whenever the builder returns, whatever the options, the target is a
    non-empty string, the list starts with ["nmap"] and ends with the
    target, and holds at most seven arguments in between. *)
Theorem build_returns_nmap_and_target target port_range options command :
  build_nmap_command target port_range options = Ok command →
  ∃ t mid, target = Some t ∧ nonempty t = true ∧
           command = "nmap" :: mid ++ [t] ∧ length mid ≤ 7.
Proof.
  rewrite build_general_form. intros H.
  pose proof (spec_option_args_length options) as Ho.
  pose proof (spec_port_args_length port_range) as Hp.
  destruct target as [t|]; [|by destruct (scan_type_part options)].
  exists t.
  destruct (scan_type_part_cases options)
    as [Hs|[[flag Hs]|[Hs|[Hs|Hs]]]]; rewrite Hs in H; try done;
    cbn [mbind result_bind truthy_str default] in H;
    destruct (nonempty t) eqn:Ht; try done; injection H as <-.
  - exists (spec_port_args port_range ++ spec_option_args options).
    split_and!; [done|done| |].
    + by rewrite <-(assoc_L (++)).
    + rewrite length_app. lia.
  - exists (flag :: spec_port_args port_range ++ spec_option_args options).
    split_and!; [done|done| |].
    + simpl. by rewrite <-(assoc_L (++)).
    + simpl. rewrite length_app. lia.
Qed.

Lemma build_returns_nmap_and_target_witness :
  build_nmap_command (Some "10.0.0.5") (Some "20-80") syn_options
    = Ok ["nmap"; "-sS"; "-p20-80"; "-sV"; "10.0.0.5"] ∧
  ∃ t mid, Some "10.0.0.5" = Some t ∧ nonempty t = true ∧
           ["nmap"; "-sS"; "-p20-80"; "-sV"; "10.0.0.5"] = "nmap" :: mid ++ [t] ∧
           length mid ≤ 7.
Proof.
  assert (build_nmap_command (Some "10.0.0.5") (Some "20-80") syn_options
            = Ok ["nmap"; "-sS"; "-p20-80"; "-sV"; "10.0.0.5"]) as H
    by (vm_compute; reflexivity).
  split; [exact H|].
  exact (build_returns_nmap_and_target _ _ _ _ H).
Defined.

(** X2: the builder reads the six recognised keys only: two option sets
    that agree on them give the same result, list or exception. *)
Theorem build_ignores_other_options target port_range options1 options2 :
  (∀ k, k ∈ recognised_options → options1 !! k = options2 !! k) →
  build_nmap_command target port_range options1 =
  build_nmap_command target port_range options2.
Proof.
  intros H. unfold build_nmap_command, dict_get, dict_item.
  rewrite !H; [done|..]; unfold recognised_options; set_solver.
Qed.

Lemma build_ignores_other_options_witness :
  (∀ k, k ∈ recognised_options → noisy_options !! k = syn_options !! k) ∧
  build_nmap_command (Some "10.0.0.5") (Some "20-80") noisy_options =
  build_nmap_command (Some "10.0.0.5") (Some "20-80") syn_options.
Proof.
  assert (∀ k, k ∈ recognised_options → noisy_options !! k = syn_options !! k)
    as H.
  { intros k Hk. unfold noisy_options. apply lookup_insert_ne.
    intros <-. vm_compute in Hk.
    repeat (apply elem_of_cons in Hk as [Hk|Hk]; [discriminate|]).
    by apply elem_of_nil in Hk. }
  split; [exact H|].
  exact (build_ignores_other_options _ _ noisy_options syn_options H).
Defined.

(** X3: a truthy [scan_type] that is not a string ([True], a non-zero
    number) makes the builder raise [AttributeError] for the missing
    [split] method, whatever the target and the other inputs. *)
Theorem build_scan_type_not_a_string target port_range options v :
  options !! "scan_type" = Some v →
  truthy v = true → (∀ x, v ≠ PyStr x) →
  build_nmap_command target port_range options =
    Raise (Exn AttributeError
             ("'" +:+ type_name v +:+ "' object has no attribute 'split'")).
Proof.
  intros Hs Hv Hx. rewrite build_general_form.
  unfold scan_type_part, dict_item.
  rewrite (dict_get_lookup _ _ _ Hs), Hs, Hv. cbn [mbind result_bind].
  destruct v as [|b|n|x]; try done. by destruct (Hx x).
Qed.

Lemma build_scan_type_not_a_string_witness :
  flag_options !! "scan_type" = Some (PyBool true) ∧
  truthy (PyBool true) = true ∧ (∀ x, PyBool true ≠ PyStr x) ∧
  build_nmap_command (Some "10.0.0.5") None flag_options =
    Raise (Exn AttributeError "'bool' object has no attribute 'split'").
Proof.
  split; [reflexivity|]. split; [reflexivity|]. split; [discriminate|].
  apply (build_scan_type_not_a_string (Some "10.0.0.5") None flag_options
           (PyBool true)); [reflexivity|reflexivity|discriminate].
Defined.

(** X4: for option sets whose values are [None], a [bool], an [int] or a
    [str], the values of [pyval], the builder fails in three ways only:
    [IndexError] from the [scan_type] without separator, [AttributeError]
    from a [scan_type] that is a truthy [bool] or [int], and [ValueError]
    from the empty target.  In particular the subscript
    [options["scan_type"]] never raises [KeyError]. *)
Theorem build_failures target port_range options e :
  build_nmap_command target port_range options = Raise e →
  e = index_error ∨ e = no_attribute "bool" "split" ∨
  e = no_attribute "int" "split" ∨
  (e = empty_target_error ∧ truthy_str target = false).
Proof.
  rewrite build_general_form. intros H.
  destruct (scan_type_part_cases options)
    as [Hs|[[flag Hs]|[Hs|[Hs|Hs]]]]; rewrite Hs in H;
    cbn [mbind result_bind] in H;
    try (injection H as <-; by eauto);
    destruct (truthy_str target); try done; injection H as <-; by eauto.
Qed.

Lemma build_failures_witness :
  build_nmap_command None (Some "20-80") syn_options = Raise empty_target_error ∧
  (empty_target_error = index_error ∨
   empty_target_error = no_attribute "bool" "split" ∨
   empty_target_error = no_attribute "int" "split" ∨
   (empty_target_error = empty_target_error ∧ truthy_str None = false)).
Proof.
  assert (build_nmap_command None (Some "20-80") syn_options
            = Raise empty_target_error) as H by (vm_compute; reflexivity).
  split; [exact H|]. exact (build_failures _ _ _ _ H).
Defined.

(** ** How the processes evolve *)

Section Evolve.

Implicit Types (s : sys) (th : thread) (tid p q : nat) (c : env).
Implicit Types (ps : list proc) (a : option nat).

Lemma evolve_refl a ps : procs_evolve a ps ps.
Proof.
  split; [|by eauto]. intros p pr Hp. exists pr. split_and!; try done.
  intros _. exists []. by rewrite !app_nil_r.
Qed.

Lemma evolve_alter a (f : proc → proc) q ps :
  (∀ x, p_owner (f x) = p_owner x ∧ p_cmd (f x) = p_cmd x ∧
        p_written (f x) = p_written x ∧ p_pending (f x) = p_pending x ∧
        (p_status x = Exited → p_status (f x) = Exited)) →
  procs_evolve a ps (alter f q ps).
Proof.
  intros Hf. split.
  - intros p pr Hp. rewrite list_lookup_alter. case_decide.
    + subst. rewrite Hp. simpl. destruct (Hf pr) as (Ho & Hc & Hw & Hpe & Hst).
      eexists. split_and!; try done. intros _. exists [].
      rewrite !app_nil_r. split_and!; [done|done|].
      intros He. split; [done|by apply Hst].
    + exists pr. split_and!; try done. intros _. exists [].
      by rewrite !app_nil_r.
  - intros p pr'. rewrite list_lookup_alter. case_decide; [|by eauto].
    subst. destruct (ps !! p); [by eauto|done].
Qed.

Lemma evolve_insert a q pr0 pr1 ls ps :
  ps !! q = Some pr0 → p_owner pr1 = p_owner pr0 → p_cmd pr1 = p_cmd pr0 →
  (Some (p_owner pr0) ≠ a →
   p_written pr1 = p_written pr0 ++ ls ∧ p_pending pr1 = p_pending pr0 ++ ls ∧
   (p_status pr0 = Exited → ls = [] ∧ p_status pr1 = Exited)) →
  procs_evolve a ps (<[q := pr1]> ps).
Proof.
  intros Hq Ho Hcm Hch.
  assert (q < length ps) as Hlt by (by eapply lookup_lt_Some).
  split.
  - intros p pr Hp. destruct (decide (q = p)) as [->|Hne].
    + assert (pr = pr0) as -> by congruence.
      rewrite list_lookup_insert_eq by done. exists pr1.
      split_and!; try done. intros Ha. exists ls. by apply Hch.
    + rewrite list_lookup_insert_ne by done. exists pr.
      split_and!; try done. intros _. exists []. by rewrite !app_nil_r.
  - intros p pr'. destruct (decide (q = p)) as [->|Hne].
    + eauto.
    + rewrite list_lookup_insert_ne by done. eauto.
Qed.

Lemma evolve_app a new ps :
  Some (p_owner new) = a → procs_evolve a ps (ps ++ [new]).
Proof.
  intros Ha. split.
  - intros p pr Hp. exists pr.
    rewrite lookup_app_l by (by eapply lookup_lt_Some).
    split_and!; try done. intros _. exists []. by rewrite !app_nil_r.
  - intros p pr' [H|[_ H]]%lookup_app_Some; [by eauto|].
    apply list_lookup_singleton_Some in H as [_ <-]. by right.
Qed.

Lemma evolve_trans a ps1 ps2 ps3 :
  procs_evolve a ps1 ps2 → procs_evolve a ps2 ps3 → procs_evolve a ps1 ps3.
Proof.
  intros [H1 H1'] [H2 H2']. split.
  - intros p pr Hp. destruct (H1 _ _ Hp) as (pr2 & Hp2 & Ho2 & Hm2 & Hc2).
    destruct (H2 _ _ Hp2) as (pr3 & Hp3 & Ho3 & Hm3 & Hc3).
    exists pr3. split_and!; [done|congruence|congruence|]. intros Ha.
    destruct (Hc2 Ha) as (ls2 & Hw2 & Hpe2 & Hst2).
    rewrite <-Ho2 in Ha. destruct (Hc3 Ha) as (ls3 & Hw3 & Hpe3 & Hst3).
    exists (ls2 ++ ls3). rewrite Hw3, Hw2, Hpe3, Hpe2, !(assoc_L (++)).
    split_and!; try done. intros He.
    destruct (Hst2 He) as [-> He2]. by destruct (Hst3 He2) as [-> He3].
  - intros p pr3 Hp3. destruct (H2' _ _ Hp3) as [[pr2 Hp2]|Ha]; [|by right].
    destruct (H1' _ _ Hp2) as [?|Ha]; [by left|].
    right. destruct (H2 _ _ Hp2) as (pr3' & Hp3' & Ho3 & _ & _).
    assert (pr3' = pr3) as -> by congruence. congruence.
Qed.

(** What a thread other than the actor keeps. *)
Lemma unspawned_evolve s s' tid a :
  a ≠ Some tid → procs_evolve a (procs s) (procs s') →
  unspawned s tid → unspawned s' tid.
Proof.
  intros Ha [H1 H2] Hu p pr' Hp Ho.
  destruct (H2 _ _ Hp) as [[pr Hp0]|Hact]; [|congruence].
  destruct (H1 _ _ Hp0) as (pr'' & Hp'' & Ho'' & _ & _).
  assert (pr'' = pr') as -> by congruence.
  apply (Hu _ _ Hp0). congruence.
Qed.

Lemma untouched_evolve s s' tid a :
  a ≠ Some tid → procs_evolve a (procs s) (procs s') →
  untouched s tid → untouched s' tid.
Proof.
  intros Ha [H1 H2] Hu p pr' Hp Ho.
  destruct (H2 _ _ Hp) as [[pr Hp0]|Hact]; [|congruence].
  destruct (H1 _ _ Hp0) as (pr'' & Hp'' & Ho'' & _ & Hc).
  assert (pr'' = pr') as -> by congruence.
  destruct Hc as (ls & Hw & Hpe & _); [congruence|].
  rewrite Hw, Hpe. f_equal. apply (Hu _ _ Hp0). congruence.
Qed.

Lemma reading_evolve s s' tid th p held a :
  a ≠ Some tid → procs_evolve a (procs s) (procs s') →
  session_log tid s' = session_log tid s →
  reading s tid th p held → reading s' tid th p held.
Proof.
  intros Ha [H1 _] HL (pr & xs & Hp & Ho & Hw & Hlog).
  destruct (H1 _ _ Hp) as (pr' & Hp' & Ho' & _ & Hc).
  destruct Hc as (ls & Hw' & Hpe' & _); [congruence|].
  exists pr', xs. split_and!; try congruence.
  by rewrite Hw', Hpe', Hw, <-!(assoc_L (++)).
Qed.

Lemma delivered_evolve s s' tid xs a :
  a ≠ Some tid → procs_evolve a (procs s) (procs s') →
  delivered s tid xs → delivered s' tid xs.
Proof.
  intros Ha [H1 _] [->|(p & pr & rest & Hp & Ho & Hw)]; [by left|].
  destruct (H1 _ _ Hp) as (pr' & Hp' & Ho' & _ & Hc).
  destruct Hc as (ls & Hw' & _); [congruence|].
  right. exists p, pr', (rest ++ ls). split_and!; try congruence.
  by rewrite Hw', Hw, (assoc_L (++)).
Qed.

Lemma all_delivered_evolve s s' tid xs a :
  a ≠ Some tid → procs_evolve a (procs s) (procs s') →
  all_delivered s tid xs → all_delivered s' tid xs.
Proof.
  intros Ha [H1 _] (p & pr & Hp & Ho & Hst & Hpe & Hw).
  destruct (H1 _ _ Hp) as (pr' & Hp' & Ho' & _ & Hc).
  destruct Hc as (ls & Hw' & Hpe' & He); [congruence|].
  destruct (He Hst) as [-> Hst'].
  exists p, pr'. rewrite Hw', Hpe', Hpe, Hw, !app_nil_r.
  split_and!; try done. congruence.
Qed.

Lemma all_delivered_delivered s tid xs :
  all_delivered s tid xs → delivered s tid xs.
Proof.
  intros (p & pr & Hp & Ho & _ & _ & Hw). right. exists p, pr, [].
  by rewrite app_nil_r.
Qed.

Lemma session_inv_evolve s s' tid th a :
  a ≠ Some tid → procs_evolve a (procs s) (procs s') →
  session_log tid s' = session_log tid s →
  session_inv s tid th → session_inv s' tid th.
Proof.
  intros Ha Hev HL. unfold session_inv. rewrite HL.
  destruct (th_pc th) as [| | |p|p l| |q| | | |e|pe| |e].
  - intros [? ?]. eauto using unspawned_evolve.
  - intros [? ?]. eauto using unspawned_evolve.
  - intros [? ?]. eauto using untouched_evolve.
  - intros ?. eapply reading_evolve; eauto.
  - intros ?. eapply reading_evolve; eauto.
  - intros (xs & ? & ?). eauto using delivered_evolve.
  - intros (xs & ? & ?). eauto using delivered_evolve.
  - intros (xs & ? & ?). eauto using delivered_evolve.
  - intros (xs & ? & ?). eauto using all_delivered_evolve.
  - intros (xs & ? & ?). eauto using all_delivered_evolve.
  - intros (xs & ? & ?). eauto using delivered_evolve.
  - intros (xs & t & ? & ? & ? & ?).
    exists xs, t. split_and!; eauto using delivered_evolve, all_delivered_evolve.
  - intros (xs & t & ? & ? & ? & ?).
    exists xs, t. split_and!; eauto using delivered_evolve, all_delivered_evolve.
  - intros (xs & t & ? & ? & ? & ?).
    exists xs, t. split_and!; eauto using delivered_evolve, all_delivered_evolve.
Qed.

End Evolve.

(** ** The sessions of every interleaving *)

Section Sound.

Implicit Types (s : sys) (th : thread) (tid t p q : nat) (c : env).

Lemma sigterm_keeps x :
  let y := Proc (p_cmd x) (p_owner x) (p_written x) (p_pending x) true
                (p_status x) in
  p_owner y = p_owner x ∧ p_cmd y = p_cmd x ∧ p_written y = p_written x ∧
  p_pending y = p_pending x ∧ (p_status x = Exited → p_status y = Exited).
Proof. done. Qed.

Lemma kill_keeps x :
  let y := Proc (p_cmd x) (p_owner x) (p_written x) (p_pending x)
                (p_sigterm x) Exited in
  p_owner y = p_owner x ∧ p_cmd y = p_cmd x ∧ p_written y = p_written x ∧
  p_pending y = p_pending x ∧ (p_status x = Exited → p_status y = Exited).
Proof. done. Qed.

Lemma terminate_begin_evolve a s :
  procs_evolve a (procs s) (procs (terminate_begin s).1).
Proof.
  unfold terminate_begin. destruct (scan_process s) as [p|]; simpl.
  - apply evolve_alter. intros x. apply sigterm_keeps.
  - apply evolve_refl.
Qed.

Lemma terminate_begin_frame s :
  log (terminate_begin s).1 = log s ∧
  threads (terminate_begin s).1 = threads s ∧
  scan_process (terminate_begin s).1 = scan_process s ∧
  stop_event (terminate_begin s).1 = stop_event s ∧
  fg (terminate_begin s).1 = fg s.
Proof.
  unfold terminate_begin. destruct (scan_process s) eqn:H; simpl; by rewrite ?H.
Qed.

Lemma terminate_end_evolve a c q s s' o :
  terminate_end c q s = Some (s', o) → procs_evolve a (procs s) (procs s').
Proof.
  unfold terminate_end. intros H.
  destruct (proc_running s q), c, (scan_process s); simplify_eq/=;
    try apply evolve_refl.
  apply evolve_alter. intros x. apply kill_keeps.
Qed.

Lemma run_scan_step_evolve t c th s s1 f :
  session_inv s t th →
  run_scan_step t c th s = Some (s1, f) →
  procs_evolve (Some t) (procs s) (procs s1).
Proof.
  unfold run_scan_step, session_inv. intros Hi H.
  destruct (th_pc th) as [| | |p|p l| |q| | | |e|[e|]| |e], c; simplify_eq/=;
    try apply evolve_refl.
  - by apply evolve_app.
  - destruct (scan_process s); simplify_eq; apply evolve_refl.
  - destruct Hi as (pr & xs & Hp & Ho & _).
    rewrite Hp in H. simpl in H.
    destruct (p_pending pr), (p_status pr); simplify_eq/=;
      try apply evolve_refl.
    + eapply (evolve_insert _ _ pr _ []); [done|done|done|]. by intros [].
    + eapply (evolve_insert _ _ pr _ []); [done|done|done|]. by intros [].
  - destruct (stop_event s); simplify_eq; apply evolve_refl.
  - pose proof (terminate_begin_evolve (Some t) s) as He.
    destruct (terminate_begin s) as [s' [q|]]; by simplify_eq.
  - destruct (terminate_end Quiet q s) as [[s' [|e]]|] eqn:Ht; simplify_eq;
      by eapply terminate_end_evolve.
  - destruct (terminate_end (Fault e) q s) as [[s' [|e']]|] eqn:Ht; simplify_eq;
      by eapply terminate_end_evolve.
  - destruct (terminate_end Timeout q s) as [[s' [|e']]|] eqn:Ht; simplify_eq;
      by eapply terminate_end_evolve.
  - destruct (scan_process s) as [q|]; [|simplify_eq; apply evolve_refl].
    destruct (proc_running s q); simplify_eq; apply evolve_refl.
  - destruct (stop_event s); simplify_eq; apply evolve_refl.
Qed.

Lemma step_evolve ev s s' :
  sound s → step ev s = Some s' →
  procs_evolve (actor ev) (procs s) (procs s').
Proof.
  intros (_ & _ & _ & _ & Hth) Hs.
  destruct ev as [target pr opts| |c|t c|pid line|pid]; simpl in Hs |- *.
  - destruct (fg s); simplify_eq. unfold start_scan.
    destruct (session_active s); [apply evolve_refl|].
    destruct (build_nmap_command target pr opts); apply evolve_refl.
  - destruct (fg s); simplify_eq. unfold stop_scan.
    destruct (match scan_process s with
              | Some p => proc_running s p | None => false end);
      [|apply evolve_refl].
    pose proof (terminate_begin_evolve None (set_stop_event true s)) as He.
    by destruct (terminate_begin (set_stop_event true s)) as [s' [q|]].
  - destruct (fg s) as [|q]; simplify_eq.
    destruct (terminate_end c q s) as [[s1 o]|] eqn:Ht; simplify_eq/=.
    by eapply terminate_end_evolve.
  - apply bg_step_inv in Hs as (th & s1 & f & Hl & Hr & ->).
    change (procs (set_pc t (handle (th_pc th) f) s1)) with (procs s1).
    eapply run_scan_step_evolve; eauto.
  - destruct (procs s !! pid) as [pr|] eqn:Hp; simplify_eq/=.
    destruct (p_status pr) eqn:Hst; simplify_eq/=.
    eapply (evolve_insert _ _ pr _ [line]); [done|done|done|].
    intros _. split_and!; try done. congruence.
  - destruct (procs s !! pid) as [pr|] eqn:Hp; simplify_eq/=.
    destruct (p_status pr) eqn:Hst; simplify_eq/=.
    eapply (evolve_insert _ _ pr _ []); [done|done|done|].
    intros _. simpl. by rewrite !app_nil_r.
Qed.

Lemma completed_line_not_error (msg : string) :
  "Error: " +:+ msg ≠ completed_line.
Proof. done. Qed.

Lemma alive_owner s t th o :
  alive_is_current s → threads s !! t = Some th → is_alive th = true →
  thread_alive s o = true → o = t.
Proof.
  intros Hcur Hl Hal Ho.
  assert (thread_alive s t = true) as Ht
    by (unfold thread_alive; by rewrite Hl).
  apply Hcur in Ho. apply Hcur in Ht. congruence.
Qed.

(** The step of a thread, seen from its own session. *)
Lemma own_step_inv t c th s s1 f :
  sound s → threads s !! t = Some th →
  run_scan_step t c th s = Some (s1, f) →
  session_inv s1 t (Thread (th_command th) (handle (th_pc th) f)).
Proof.
  intros (Hcur & Hh & Hob & Hlb & Hth) Hl Hr.
  pose proof (run_scan_step_alive _ _ _ _ _ Hr) as Hal.
  pose proof (Hth _ _ Hl) as Hi.
  unfold session_inv in Hi |- *. unfold run_scan_step in Hr.
  cbn [th_command th_pc].
  destruct (th_pc th) as [| | |p|p l| |q| | | |e|pe| |e] eqn:Hpc.
  - (* line 58 *)
    destruct c; try done. injection Hr as <- <-. destruct Hi as [HL Hu].
    cbn [handle]. split; [|exact Hu].
    by rewrite session_log_emit_self, HL.
  - (* lines 59-61 *)
    destruct Hi as [HL Hu]. destruct c as [|e|]; try done.
    + injection Hr as <- <-. cbn [handle]. split; [exact HL|].
      intros p pr. simpl. intros [H|[_ H]]%lookup_app_Some Ho.
      * by destruct (Hu _ _ H).
      * by apply list_lookup_singleton_Some in H as [_ <-].
    + injection Hr as <- <-. cbn [handle]. exists []. split; [exact HL|by left].
  - (* line 62, the stream *)
    destruct Hi as [HL Hu]. destruct c; try done.
    destruct (scan_process s) as [p|] eqn:Hsp; injection Hr as <- <-;
      cbn [handle].
    + destruct (Hh _ Hsp) as (pr & Hp & Ho).
      apply (alive_owner _ _ _ _ Hcur Hl Hal) in Ho.
      exists pr, []. split_and!; try done. simpl. by apply (Hu _ _ Hp).
    + exists []. split; [exact HL|by left].
  - (* line 62, the next line *)
    destruct Hi as (pr & xs & Hp & Ho & Hw & HL).
    assert (p < length (procs s)) as Hlt by (by eapply lookup_lt_Some).
    destruct c as [|e|]; try done.
    + rewrite Hp in Hr. simpl in Hr.
      destruct (p_pending pr) as [|line rest] eqn:Hpe.
      * destruct (p_status pr) eqn:Hst; [done|]. injection Hr as <- <-.
        cbn [handle]. exists xs. split; [exact HL|].
        exists p, pr. split_and!; try done.
        by rewrite Hw, app_nil_r.
      * injection Hr as <- <-. cbn [handle].
        eexists _, xs. simpl. rewrite list_lookup_insert_eq by done.
        split_and!; try done.
    + injection Hr as <- <-. cbn [handle]. exists xs. split; [exact HL|].
      right. exists p, pr, (p_pending pr). by split_and!.
  - (* lines 63 and 67 *)
    destruct Hi as (pr & xs & Hp & Ho & Hw & HL). destruct c; try done.
    destruct (stop_event s); injection Hr as <- <-; cbn [handle].
    + exists xs. split; [exact HL|]. right. by exists p, pr, ([l] ++ p_pending pr).
    + exists pr, (xs ++ [l]). split_and!; try done.
      * by rewrite Hw, <-!(assoc_L (++)).
      * by rewrite session_log_emit_self, HL, map_app.
  - (* line 64 *)
    destruct Hi as (xs & HL & Hd). destruct c; try done.
    pose proof (terminate_begin_evolve None s) as He.
    pose proof (terminate_begin_frame s) as (Hlog & _).
    destruct (terminate_begin s) as [s' [q|]]; injection Hr as <- <-;
      cbn [handle]; exists xs; simpl in He, Hlog;
      (split; [unfold session_log in *; by rewrite Hlog|]);
      by eapply (delivered_evolve s _ _ _ None).
  - (* lines 81-86 *)
    destruct Hi as (xs & HL & Hd).
    destruct (terminate_end c q s) as [[s' o]|] eqn:Ht; [|done].
    pose proof (terminate_end_evolve None _ _ _ _ _ Ht) as He.
    apply terminate_end_frame in Ht as (_ & _ & _ & Hlog & _).
    destruct o as [|e]; injection Hr as <- <-; cbn [handle]; exists xs;
      (split; [unfold session_log in *; by rewrite Hlog|]);
      by eapply (delivered_evolve s _ _ _ None).
  - (* lines 65-66 *)
    destruct Hi as (xs & HL & Hd). destruct c; try done.
    injection Hr as <- <-. cbn [handle]. exists xs, [stopped_line].
    split_and!; try done.
    + by rewrite session_log_emit_self, HL.
    + right. by left.
  - (* line 68 *)
    destruct Hi as (xs & HL & Hd). destruct c; try done.
    destruct (scan_process s) as [p|].
    + destruct (proc_running s p); [done|]. injection Hr as <- <-.
      cbn [handle]. by exists xs.
    + injection Hr as <- <-. cbn [handle]. exists xs.
      split; [exact HL|]. by apply all_delivered_delivered.
  - (* lines 69-70 *)
    destruct Hi as (xs & HL & Hd). destruct c; try done.
    destruct (stop_event s); injection Hr as <- <-; cbn [handle].
    + exists xs, []. rewrite app_nil_r.
      split_and!; try done; [by left|by apply all_delivered_delivered].
    + exists xs, [completed_line]. split_and!; try done.
      * by rewrite session_log_emit_self, HL.
      * right. right. by left.
      * by apply all_delivered_delivered.
  - (* lines 71-72 *)
    destruct Hi as (xs & HL & Hd). destruct c; try done.
    injection Hr as <- <-. cbn [handle].
    exists xs, ["Error: " +:+ str_exn e]. split_and!; try done.
    + by rewrite session_log_emit_self, HL.
    + right. right. right. by exists e.
  - (* lines 73-74 *)
    destruct c; try done. injection Hr as <- <-.
    by destruct pe as [e|]; cbn [handle].
  - by destruct c.
  - by destruct c.
Qed.

Lemma terminate_begin_length s :
  length (procs (terminate_begin s).1) = length (procs s).
Proof.
  unfold terminate_begin. destruct (scan_process s); simpl; [|done].
  by rewrite length_alter.
Qed.

Lemma terminate_end_length c q s s' o :
  terminate_end c q s = Some (s', o) → length (procs s') = length (procs s).
Proof.
  unfold terminate_end. intros H.
  destruct (proc_running s q), c, (scan_process s); simplify_eq/=; try done.
  by rewrite length_alter.
Qed.

Lemma run_scan_step_handle t c th s s1 f :
  run_scan_step t c th s = Some (s1, f) →
  ((scan_process s1 = scan_process s ∨ scan_process s1 = None) ∧
   length (procs s1) = length (procs s)) ∨
  (th_pc th = PcSpawn ∧ f = Goto PcIter ∧
   scan_process s1 = Some (length (procs s)) ∧
   procs s1 = procs s ++ [Proc (th_command th) t [] [] false Running]).
Proof.
  unfold run_scan_step. intros H.
  destruct (th_pc th) as [| | |p|p l| |q| | | |e|[e|]| |e], c; simplify_eq/=;
    eauto 10.
  - destruct (scan_process s) eqn:E; simplify_eq; eauto.
  - destruct (procs s !! p) as [pr|]; simplify_eq/=.
    destruct (p_pending pr), (p_status pr); simplify_eq/=; eauto;
      left; (split; [by left|by rewrite length_insert]).
  - destruct (stop_event s); simplify_eq; eauto.
  - pose proof (terminate_begin_frame s) as (_ & _ & Hsp & _).
    pose proof (terminate_begin_length s) as Hlen.
    destruct (terminate_begin s) as [s' [q|]]; simplify_eq/=; eauto.
  - destruct (terminate_end Quiet q s) as [[s' [|e]]|] eqn:Ht; simplify_eq;
      pose proof (terminate_end_length _ _ _ _ _ Ht);
      apply terminate_end_frame in Ht as (_ & _ & _ & _ & -> & _); eauto.
  - destruct (terminate_end (Fault e) q s) as [[s' [|e']]|] eqn:Ht; simplify_eq;
      pose proof (terminate_end_length _ _ _ _ _ Ht);
      apply terminate_end_frame in Ht as (_ & _ & _ & _ & -> & _); eauto.
  - destruct (terminate_end Timeout q s) as [[s' [|e']]|] eqn:Ht; simplify_eq;
      pose proof (terminate_end_length _ _ _ _ _ Ht);
      apply terminate_end_frame in Ht as (_ & _ & _ & _ & -> & _); eauto.
  - destruct (scan_process s) as [q|] eqn:E; [|simplify_eq; eauto].
    destruct (proc_running s q); simplify_eq; eauto.
  - destruct (stop_event s); simplify_eq; eauto.
Qed.

(** How a step changes [scan_process] and the list of processes: the
    handle stays or becomes [None] and no process is added, or a thread
    has just spawned the process the handle now refers to. *)
Lemma step_handle ev s s' :
  step ev s = Some s' →
  ((scan_process s' = scan_process s ∨ scan_process s' = None) ∧
   length (procs s') = length (procs s)) ∨
  (∃ t th, actor ev = Some t ∧ threads s !! t = Some th ∧
           th_pc th = PcSpawn ∧
           threads s' !! t = Some (Thread (th_command th) PcIter) ∧
           scan_process s' = Some (length (procs s)) ∧
           procs s' = procs s ++ [Proc (th_command th) t [] [] false Running]).
Proof.
  intros Hs.
  destruct ev as [target pr opts| |c|t c|pid line|pid]; simpl in Hs.
  - destruct (fg s); simplify_eq. unfold start_scan.
    destruct (session_active s); [by left; split; [left|]|].
    destruct (build_nmap_command target pr opts); by left; split; [left|].
  - destruct (fg s); simplify_eq. unfold stop_scan.
    destruct (match scan_process s with
              | Some p => proc_running s p | None => false end);
      [|by left; split; [left|]].
    pose proof (terminate_begin_frame (set_stop_event true s))
      as (_ & _ & Hsp & _).
    pose proof (terminate_begin_length (set_stop_event true s)) as Hlen.
    destruct (terminate_begin (set_stop_event true s)) as [s1 [q|]];
      simpl in *; by left; split; [left|].
  - destruct (fg s) as [|q]; simplify_eq.
    destruct (terminate_end c q s) as [[s1 o]|] eqn:Ht; simplify_eq/=.
    pose proof (terminate_end_length _ _ _ _ _ Ht).
    apply terminate_end_frame in Ht as (_ & _ & _ & _ & -> & _). eauto.
  - apply bg_step_inv in Hs as (th & s1 & f & Hl & Hr & ->).
    pose proof (run_scan_step_frame _ _ _ _ _ _ Hr) as (Ht & _).
    destruct (run_scan_step_handle _ _ _ _ _ _ Hr)
      as [H|(Hpc & -> & Hsp & Hp)]; [by left|].
    right. exists t, th. rewrite Hpc. cbn [handle].
    split_and!; try done. rewrite <-Ht in Hl. by apply lookup_set_pc_eq.
  - destruct (procs s !! pid) as [pr|]; simplify_eq/=.
    destruct (p_status pr); simplify_eq/=. left.
    split; [by left|by rewrite length_insert].
  - destruct (procs s !! pid) as [pr|]; simplify_eq/=.
    destruct (p_status pr); simplify_eq/=. left.
    split; [by left|by rewrite length_insert].
Qed.

(** A live thread stays alive, or the step was its [finally] clause. *)
Lemma step_alive_kept ev s s' o :
  step ev s = Some s' → thread_alive s o = true →
  thread_alive s' o = true ∨ scan_process s' = None.
Proof.
  intros Hs Ho. unfold thread_alive in *.
  destruct (step_threads _ _ _ Hs)
    as [[_ [->|(t & th & c & -> & Hl & Hal & f & s1 & Hr & Ht)]]
       |(command & _ & _ & ->)].
  - by left.
  - rewrite Ht. destruct (decide (t = o)) as [->|Hne].
    + rewrite list_lookup_alter_eq, Hl. simpl. unfold is_alive. simpl.
      destruct (running_pc (handle (th_pc th) f)) eqn:Hrun; [by left|].
      right. apply (last_step_is_cleanup _ _ _ _ _ _ Hr) in Hrun as ->.
      simpl in Hs. apply bg_step_inv in Hs as (th' & s1' & f' & Hl' & Hr' & ->).
      assert (th' = th) as -> by congruence.
      assert (s1' = cleanup_process s) as -> by congruence. done.
    + rewrite list_lookup_alter_ne by done. by left.
  - left. destruct (threads s !! o) eqn:Hl; [|done].
    rewrite lookup_app_l by (by eapply lookup_lt_Some). by rewrite Hl.
Qed.

Lemma step_threads_length ev s s' :
  step ev s = Some s' → length (threads s) ≤ length (threads s').
Proof.
  intros Hs.
  destruct (step_threads _ _ _ Hs)
    as [[_ [->|(t & th & c & _ & _ & _ & f & s1 & _ & ->)]]
       |(command & _ & _ & ->)].
  - done.
  - by rewrite length_alter.
  - rewrite length_app. simpl. lia.
Qed.

Lemma sound_init : sound init.
Proof. by split_and!; try done; intros ?; try intros ?. Qed.

Lemma sound_step ev s s' : sound s → step ev s = Some s' → sound s'.
Proof.
  intros Hsound Hs. pose proof Hsound as (Hcur & Hh & Hob & Hlb & Hth).
  pose proof (step_evolve _ _ _ Hsound Hs) as Hev.
  pose proof (alive_is_current_step _ _ _ Hcur Hs) as Hcur'.
  pose proof (step_threads_length _ _ _ Hs) as Hlen.
  assert (∀ t, actor ev = Some t → t < length (threads s)) as Hact.
  { intros t Ha. destruct ev; simplify_eq/=.
    apply bg_step_inv in Hs as (th & _ & _ & Hl & _). by eapply lookup_lt_Some. }
  assert (∀ tid, actor ev ≠ Some tid →
            session_log tid s' = session_log tid s) as Hlog.
  { intros tid Ha. eapply session_log_other_step; [|done].
    intros c ->. by apply Ha. }
  split_and!.
  - done.
  - (* the process handle *)
    intros p Hsp.
    destruct (step_handle _ _ _ Hs)
      as [[[H|H] _]|(t & th & Ha & Hl & _ & Hl' & Hsp' & Hp')]; [|congruence|].
    + rewrite H in Hsp. destruct (Hh _ Hsp) as (pr & Hp & Ho).
      destruct Hev as [H1 _].
      destruct (H1 _ _ Hp) as (pr' & Hp' & Ho' & _ & _).
      exists pr'. split; [done|]. rewrite Ho'.
      destruct (step_alive_kept _ _ _ _ Hs Ho); [done|congruence].
    + assert (p = length (procs s)) as -> by congruence.
      eexists. rewrite Hp', list_lookup_middle by done.
      split; [done|]. simpl. unfold thread_alive. by rewrite Hl'.
  - (* the owners *)
    intros p pr' Hp'. destruct Hev as [H1 H2].
    destruct (H2 _ _ Hp') as [[pr Hp]|Ha].
    + destruct (H1 _ _ Hp) as (pr'' & Hp'' & Ho & _ & _).
      assert (pr'' = pr') as -> by congruence.
      rewrite Ho. apply Hob in Hp. lia.
    + symmetry in Ha. apply Hact in Ha. lia.
  - (* the lines of threads to come *)
    intros tid Hge. rewrite Hlog; [apply Hlb; lia|].
    intros Ha. apply Hact in Ha. lia.
  - (* the sessions *)
    intros tid th' Hl'.
    destruct (decide (actor ev = Some tid)) as [Ha|Ha].
    + destruct ev as [| | |t c| |]; simplify_eq/=.
      apply bg_step_inv in Hs as (th & s1 & f & Hl & Hr & ->).
      pose proof (run_scan_step_frame _ _ _ _ _ _ Hr) as (Ht & _).
      rewrite <-Ht in Hl. rewrite (lookup_set_pc_eq _ _ _ _ Hl) in Hl'.
      injection Hl' as <-. rewrite Ht in Hl.
      by apply (own_step_inv _ _ _ _ _ _ Hsound Hl Hr).
    + destruct (step_threads _ _ _ Hs)
        as [[_ [Ht|(t & th & c & -> & Hl & Hal & f & s1 & Hr & Ht)]]
           |(command & _ & _ & Ht)]; rewrite Ht in Hl'.
      * eapply session_inv_evolve; eauto.
      * rewrite list_lookup_alter_ne in Hl' by (intros ->; by apply Ha).
        eapply session_inv_evolve; eauto.
      * apply lookup_app_Some in Hl' as [Hl'|[Hge Hl']].
        { eapply session_inv_evolve; eauto. }
        apply list_lookup_singleton_Some in Hl' as [H0 <-].
        assert (tid = length (threads s)) as -> by lia.
        split; [rewrite Hlog by done; by apply Hlb|].
        eapply unspawned_evolve; [done|done|].
        intros p pr Hp Ho. apply Hob in Hp. lia.
Qed.

Lemma reachable_sound s : reachable s → sound s.
Proof. apply reachable_ind; [apply sound_init|]. intros. by eapply sound_step. Qed.

End Sound.

(** ** Further invariants of the reachable states *)

Section Invariants.

Implicit Types (s : sys) (th : thread) (tid t p q : nat) (c : env).

Lemma run_scan_step_event t c th s s1 f :
  run_scan_step t c th s = Some (s1, f) →
  stop_event s1 = stop_event s ∨ stop_event s1 = false.
Proof.
  unfold run_scan_step. intros H.
  destruct (th_pc th) as [| | |p|p l| |q| | | |e|[e|]| |e], c; simplify_eq/=;
    eauto.
  - destruct (scan_process s) eqn:E; simplify_eq; eauto.
  - destruct (procs s !! p) as [pr|]; simplify_eq/=.
    destruct (p_pending pr), (p_status pr); simplify_eq/=; eauto.
  - destruct (stop_event s) eqn:E; simplify_eq; eauto.
  - pose proof (terminate_begin_frame s) as (_ & _ & _ & Hse & _).
    destruct (terminate_begin s) as [s' [q|]]; simplify_eq/=; eauto.
  - destruct (terminate_end Quiet q s) as [[s' [|e]]|] eqn:Ht; simplify_eq;
      apply terminate_end_frame in Ht as (_ & _ & _ & _ & _ & ->); eauto.
  - destruct (terminate_end (Fault e) q s) as [[s' [|e']]|] eqn:Ht; simplify_eq;
      apply terminate_end_frame in Ht as (_ & _ & _ & _ & _ & ->); eauto.
  - destruct (terminate_end Timeout q s) as [[s' [|e']]|] eqn:Ht; simplify_eq;
      apply terminate_end_frame in Ht as (_ & _ & _ & _ & _ & ->); eauto.
  - destruct (scan_process s) as [q|] eqn:E; [|simplify_eq; eauto].
    destruct (proc_running s q); simplify_eq; eauto.
  - destruct (stop_event s) eqn:E; simplify_eq; eauto.
Qed.

(** No step leads a thread back before its spawn. *)
Lemma handle_past_spawn t c th s s1 f :
  run_scan_step t c th s = Some (s1, f) →
  handle (th_pc th) f ≠ PcStart ∧
  (handle (th_pc th) f = PcSpawn → th_pc th = PcStart).
Proof.
  unfold run_scan_step. intros H.
  destruct (th_pc th) as [| | |p|p l| |q| | | |e|[e|]| |e], c; simplify_eq/=;
    try done.
  - by destruct (scan_process s); simplify_eq.
  - destruct (procs s !! p) as [pr|]; simplify_eq/=.
    destruct (p_pending pr), (p_status pr); by simplify_eq.
  - by destruct (stop_event s); simplify_eq.
  - by destruct (terminate_begin s) as [s' [q|]]; simplify_eq.
  - by destruct (terminate_end Quiet q s) as [[s' [|e]]|]; simplify_eq.
  - by destruct (terminate_end (Fault e) q s) as [[s' [|e']]|]; simplify_eq.
  - by destruct (terminate_end Timeout q s) as [[s' [|e']]|]; simplify_eq.
  - destruct (scan_process s) as [q|]; [|by simplify_eq].
    by destruct (proc_running s q); simplify_eq.
  - by destruct (stop_event s); simplify_eq.
Qed.

(** While a process handle is set, no thread is before its spawn. *)
Lemma handle_past_start s p tid th :
  sound s → scan_process s = Some p → threads s !! tid = Some th →
  th_pc th ≠ PcStart ∧ th_pc th ≠ PcSpawn.
Proof.
  intros (Hcur & Hh & _ & _ & Hth) Hsp Hl.
  destruct (Hh _ Hsp) as (pr & Hp & Ho).
  pose proof (Hth _ _ Hl) as Hi. unfold session_inv in Hi.
  split; intros Hpc; rewrite Hpc in Hi; destruct Hi as [_ Hu];
    (assert (is_alive th = true) as Hal by (unfold is_alive; by rewrite Hpc));
    apply (alive_owner _ _ _ _ Hcur Hl Hal) in Ho; by destruct (Hu _ _ Hp).
Qed.

Lemma stop_inv_init : stop_inv init.
Proof. by intros p. Qed.

Lemma stop_inv_step ev s s' :
  sound s → stop_inv s → step ev s = Some s' → stop_inv s'.
Proof.
  intros Hsound Hwait Hs.
  destruct ev as [target pr opts| |c|t c|pid line|pid]; simpl in Hs.
  - destruct (fg s) eqn:Hfg; simplify_eq.
    unfold start_scan. destruct (session_active s).
    { intros p. simpl. by rewrite Hfg. }
    destruct (build_nmap_command target pr opts);
      intros p; simpl; by rewrite Hfg.
  - destruct (fg s) eqn:Hfg; simplify_eq.
    unfold stop_scan, terminate_begin. simpl.
    destruct (scan_process s) as [p|] eqn:Hsp.
    2:{ intros p. simpl. by rewrite Hfg. }
    destruct (proc_running s p).
    2:{ intros p'. simpl. by rewrite Hfg. }
    intros p'. simpl. intros [= <-]. split; [congruence|].
    intros tid th Hl. by eapply handle_past_start.
  - destruct (fg s) as [|q]; simplify_eq.
    destruct (terminate_end c q s) as [[s1 o]|] eqn:Ht; simplify_eq/=.
    by intros p.
  - apply bg_step_inv in Hs as (th & s1 & f & Hl & Hr & ->).
    pose proof (run_scan_step_frame _ _ _ _ _ _ Hr) as (Ht & _ & Hfg).
    intros p. simpl. rewrite Hfg. intros Hp.
    destruct (Hwait _ Hp) as [Hq Hpc].
    destruct (Hpc _ _ Hl) as [Hpc1 Hpc2]. split.
    + intros q Hsp.
      destruct (run_scan_step_handle _ _ _ _ _ _ Hr)
        as [[[H|H] _]|(? & _)]; [|congruence|done].
      apply Hq. congruence.
    + intros tid th'. rewrite Ht, list_lookup_alter. case_decide.
      { subst. rewrite Hl. intros [= <-]. simpl.
        destruct (handle_past_spawn _ _ _ _ _ _ Hr) as [H1 H2].
        split; [done|]. intros H. by apply H2 in H. }
      apply Hpc.
  - destruct (procs s !! pid) as [pr|]; simplify_eq/=.
    by destruct (p_status pr); simplify_eq/=.
  - destruct (procs s !! pid) as [pr|]; simplify_eq/=.
    by destruct (p_status pr); simplify_eq/=.
Qed.

Lemma reachable_stop_inv s : reachable s → stop_inv s.
Proof.
  intros Hr.
  enough (sound s ∧ stop_inv s) as [_ ?] by done.
  revert s Hr. apply reachable_ind; [split; [apply sound_init|apply stop_inv_init]|].
  intros ev s s' [H1 H2] Hs. split; [by eapply sound_step|by eapply stop_inv_step].
Qed.

Lemma step_thread_kept ev s s' t th :
  step ev s = Some s' → threads s !! t = Some th →
  ∃ th', threads s' !! t = Some th' ∧ th_command th' = th_command th.
Proof.
  intros Hs Hl.
  destruct (step_threads _ _ _ Hs)
    as [[_ [->|(t0 & th0 & c & _ & _ & _ & f & s1 & _ & ->)]]
       |(command & _ & _ & ->)].
  - eauto.
  - rewrite list_lookup_alter. case_decide; [|by eauto].
    subst. rewrite Hl. simpl. eauto.
  - rewrite lookup_app_l by (by eapply lookup_lt_Some). eauto.
Qed.

Lemma step_thread_commands ev s s' tid th' :
  step ev s = Some s' → threads s' !! tid = Some th' →
  (∃ th, threads s !! tid = Some th ∧ th_command th = th_command th') ∨
  built (th_command th').
Proof.
  intros Hs Hl'.
  destruct ev as [target pr opts| |c|t c|pid line|pid]; simpl in Hs.
  - destruct (fg s); simplify_eq. unfold start_scan in Hl'.
    destruct (session_active s); [by eauto|].
    destruct (build_nmap_command target pr opts) as [command|e] eqn:Hb;
      [|by eauto].
    simpl in Hl'. apply lookup_app_Some in Hl' as [?|[_ Hl']]; [by eauto|].
    apply list_lookup_singleton_Some in Hl' as [_ <-].
    right. by exists target, pr, opts.
  - destruct (fg s); simplify_eq.
    destruct (stop_scan_frame s) as [Ht _]. rewrite Ht in Hl'. eauto.
  - destruct (fg s) as [|q]; simplify_eq.
    destruct (terminate_end c q s) as [[s1 o]|] eqn:Ht; simplify_eq/=.
    apply terminate_end_frame in Ht as (Ht & _). rewrite Ht in Hl'. eauto.
  - apply bg_step_inv in Hs as (th & s1 & f & Hl & Hr & ->).
    pose proof (run_scan_step_frame _ _ _ _ _ _ Hr) as (Ht & _).
    simpl in Hl'. rewrite Ht, list_lookup_alter in Hl'.
    case_decide; [|by eauto]. subst. rewrite Hl in Hl'.
    injection Hl' as <-. eauto.
  - destruct (procs s !! pid) as [pr|]; simplify_eq/=.
    destruct (p_status pr); simplify_eq/=. eauto.
  - destruct (procs s !! pid) as [pr|]; simplify_eq/=.
    destruct (p_status pr); simplify_eq/=. eauto.
Qed.

Lemma commands_built_step ev s s' :
  sound s → commands_built s → step ev s = Some s' → commands_built s'.
Proof.
  intros Hsound [Hth Hpr] Hs. split.
  - intros tid th' Hl'.
    destruct (step_thread_commands _ _ _ _ _ Hs Hl') as [(th & Hl & <-)|?];
      [by eapply Hth|done].
  - intros p pr' Hp'.
    assert (∀ pr, procs s !! p = Some pr → p_owner pr' = p_owner pr →
                  p_cmd pr' = p_cmd pr →
                  ∃ th, threads s' !! p_owner pr' = Some th ∧
                        p_cmd pr' = th_command th) as Hold.
    { intros pr Hp Ho Hc. destruct (Hpr _ _ Hp) as (th & Hl & Hcmd).
      destruct (step_thread_kept _ _ _ _ _ Hs Hl) as (th' & Hl' & Hc').
      exists th'. rewrite Ho. split; [done|congruence]. }
    destruct (step_handle _ _ _ Hs)
      as [[_ Hlen]|(t & th & Ha & Hl & _ & Hl' & _ & Hps)].
    + pose proof (lookup_lt_Some _ _ _ Hp') as Hlt. rewrite Hlen in Hlt.
      apply lookup_lt_is_Some in Hlt as [pr Hp].
      destruct (step_evolve _ _ _ Hsound Hs) as [H1 _].
      destruct (H1 _ _ Hp) as (pr'' & Hp'' & Ho & Hc & _).
      assert (pr'' = pr') as -> by congruence. by eapply Hold.
    + rewrite Hps in Hp'.
      apply lookup_app_Some in Hp' as [Hp|[_ Hp]]; [by eapply Hold|].
      apply list_lookup_singleton_Some in Hp as [_ <-]. simpl. eauto.
Qed.

Lemma owns_once_step ev s s' :
  sound s → owns_once s → step ev s = Some s' → owns_once s'.
Proof.
  intros Hsound Hon Hs p q pr1 pr2 Hp Hq Ho.
  destruct (step_evolve _ _ _ Hsound Hs) as [H1 _].
  destruct (step_handle _ _ _ Hs)
    as [[_ Hlen]|(t & th & Ha & Hl & Hpc & _ & _ & Hps)].
  - pose proof (lookup_lt_Some _ _ _ Hp) as Hlt1. rewrite Hlen in Hlt1.
    pose proof (lookup_lt_Some _ _ _ Hq) as Hlt2. rewrite Hlen in Hlt2.
    apply lookup_lt_is_Some in Hlt1 as [pr1' Hp'].
    apply lookup_lt_is_Some in Hlt2 as [pr2' Hq'].
    destruct (H1 _ _ Hp') as (x & Hx & Hox & _).
    destruct (H1 _ _ Hq') as (y & Hy & Hoy & _).
    assert (x = pr1) as -> by congruence. assert (y = pr2) as -> by congruence.
    eapply Hon; [done|done|congruence].
  - destruct Hsound as (_ & _ & _ & _ & Hth).
    pose proof (Hth _ _ Hl) as Hi. unfold session_inv in Hi.
    rewrite Hpc in Hi. destruct Hi as [_ Hu].
    rewrite Hps in Hp, Hq.
    apply lookup_app_Some in Hp as [Hp|[Hge1 Hp]];
      apply lookup_app_Some in Hq as [Hq|[Hge2 Hq]].
    + by eapply Hon.
    + apply list_lookup_singleton_Some in Hq as [_ <-].
      by destruct (Hu _ _ Hp).
    + apply list_lookup_singleton_Some in Hp as [_ <-].
      destruct (Hu _ _ Hq). by rewrite <-Ho.
    + apply list_lookup_singleton_Some in Hp as [Hp _].
      apply list_lookup_singleton_Some in Hq as [Hq _]. lia.
Qed.

Lemma reachable_commands_built s : reachable s → commands_built s.
Proof.
  intros Hr.
  enough (sound s ∧ commands_built s) as [_ ?] by done.
  revert s Hr. apply reachable_ind; [split; [apply sound_init|by split]|].
  intros ev s s' [H1 H2] Hs.
  split; [by eapply sound_step|by eapply commands_built_step].
Qed.

Lemma reachable_owns_once s : reachable s → owns_once s.
Proof.
  intros Hr.
  enough (sound s ∧ owns_once s) as [_ ?] by done.
  revert s Hr. apply reachable_ind.
  { split; [apply sound_init|]. by intros p q pr pr'. }
  intros ev s s' [H1 H2] Hs.
  split; [by eapply sound_step|by eapply owns_once_step].
Qed.

(** What the foreground calls add to the lines they emitted. *)
Lemma step_fg_log ev s s' :
  step ev s = Some s' →
  fg_log s' = fg_log s ∨
  fg_log s' = fg_log s ++ ["A scan is already in progress. Please wait."] ∨
  fg_log s' = fg_log s ++ ["No active scan to stop."].
Proof.
  intros Hs. unfold fg_log.
  destruct ev as [target pr opts| |c|t c|pid line|pid]; simpl in Hs.
  - destruct (fg s); simplify_eq. unfold start_scan.
    destruct (session_active s).
    { right. left. simpl. by rewrite omap_app. }
    destruct (build_nmap_command target pr opts); by left.
  - destruct (fg s); simplify_eq. unfold stop_scan.
    destruct (match scan_process s with
              | Some p => proc_running s p | None => false end).
    + pose proof (terminate_begin_frame (set_stop_event true s)) as (Hl & _).
      destruct (terminate_begin (set_stop_event true s)) as [s1 [q|]];
        left; simpl in *; by rewrite Hl.
    + right. right. simpl. by rewrite omap_app.
  - destruct (fg s) as [|q]; simplify_eq.
    destruct (terminate_end c q s) as [[s1 o]|] eqn:Ht; simplify_eq/=.
    apply terminate_end_frame in Ht as (_ & _ & _ & -> & _). by left.
  - apply bg_step_inv in Hs as (th & s1 & f & Hl & Hr & ->). left.
    change (log (set_pc t (handle (th_pc th) f) s1)) with (log s1).
    destruct (run_scan_step_log _ _ _ _ _ _ Hr) as [->|[line ->]]; [done|].
    rewrite omap_app. simpl. by rewrite app_nil_r.
  - destruct (procs s !! pid) as [pr|]; simplify_eq/=.
    destruct (p_status pr); simplify_eq/=. by left.
  - destruct (procs s !! pid) as [pr|]; simplify_eq/=.
    destruct (p_status pr); simplify_eq/=. by left.
Qed.

Lemma proc_running_kill s p : proc_running (kill p s) p = false.
Proof.
  unfold proc_running, kill. simpl. rewrite list_lookup_alter_eq.
  by destruct (procs s !! p).
Qed.

Lemma built_starts_with_nmap command :
  built command → ∃ rest, command = "nmap" :: rest.
Proof.
  intros (target & pr & opts & H). rewrite build_general_form in H.
  destruct (scan_type_part_cases opts)
    as [Hs|[[flag Hs]|[Hs|[Hs|Hs]]]]; rewrite Hs in H; try done;
    cbn [mbind result_bind] in H;
    destruct (truthy_str target); try done; injection H as <-; by eauto.
Qed.

End Invariants.


(** ** Sessions that have completed *)

Section Completion.

Implicit Types (s : sys) (th : thread) (tid p : nat) (c : env).





End Completion.



(** ** Trimming *)

Section Strip.

Implicit Types (s w : string) (ws : list string).

Lemma rev_app (a b : string) :
  string_rev (a +:+ b) = string_rev b +:+ string_rev a.
Proof.
  induction a as [|c a IH]; [by rewrite app_empty_l, app_empty_r|].
  rewrite app_cons. simpl. by rewrite IH, app_assoc_str.
Qed.

Lemma rev_involutive (a : string) : string_rev (string_rev a) = a.
Proof.
  induction a as [|c a IH]; [done|]. simpl. rewrite rev_app, IH. reflexivity.
Qed.

Lemma rev_length (a : string) : String.length (string_rev a) = String.length a.
Proof.
  induction a as [|c a IH]; [done|]. simpl. rewrite str_length_app, IH. simpl. lia.
Qed.

Lemma rev_nonempty (a : string) : nonempty a = true → nonempty (string_rev a) = true.
Proof.
  destruct a as [|c a]; [done|]. intros _. simpl.
  destruct (string_rev a) as [|d r]; [done|]. by rewrite app_cons.
Qed.

Lemma startswith_app w a b :
  startswith w a = true → startswith w (a +:+ b) = true.
Proof.
  intros H. apply prefix_drop in H. rewrite H, app_assoc_str. apply prefix_app.
Qed.

Lemma startswith_empty w : nonempty w = true → startswith w EmptyString = false.
Proof. by destruct w. Qed.

Lemma made_of_app ws a b : made_of ws a → made_of ws b → made_of ws (a +:+ b).
Proof.
  induction 1 as [|w s Hw Hs IH]; intros Hb; [by rewrite app_empty_l|].
  rewrite app_assoc_str. constructor; [done|by apply IH].
Qed.

Lemma made_of_one ws w : w ∈ ws → made_of ws w.
Proof.
  intros Hw. rewrite <-(app_empty_r w). constructor; [done|constructor].
Qed.

Lemma made_of_rev ws a :
  made_of (map string_rev ws) a → made_of ws (string_rev a).
Proof.
  induction 1 as [|w s Hw Hs IH]; [constructor|].
  rewrite rev_app. apply made_of_app; [done|].
  apply list_elem_of_fmap in Hw as (w0 & -> & Hw0).
  rewrite rev_involutive. by apply made_of_one.
Qed.

Lemma skip_one_sound ws s r :
  skip_one ws s = Some r → ∃ w, w ∈ ws ∧ s = w +:+ r.
Proof.
  induction ws as [|w ws IH]; [done|]. simpl.
  destruct (startswith w s) eqn:Hw.
  - intros [= <-]. exists w. split; [left|by apply prefix_drop].
  - intros H. destruct (IH H) as (w' & ? & ?). exists w'. split; [by right|done].
Qed.

Lemma skip_one_none ws s w :
  skip_one ws s = None → w ∈ ws → startswith w s = false.
Proof.
  induction ws as [|w' ws IH]; intros H Hin; [by apply elem_of_nil in Hin|].
  simpl in H. destruct (startswith w' s) eqn:Hw; [done|].
  apply elem_of_cons in Hin as [->|Hin]; [done|by apply IH].
Qed.

(** What [skip_all] removes is made of members of [ws]. *)
Lemma skip_all_split n ws s :
  ∃ a, made_of ws a ∧ s = a +:+ skip_all n ws s.
Proof.
  revert s. induction n as [|n IH]; intros s; simpl.
  { exists EmptyString. split; [constructor|done]. }
  destruct (skip_one ws s) as [r|] eqn:Hr.
  - apply skip_one_sound in Hr as (w & Hw & ->).
    destruct (IH r) as (a & Ha & Hr).
    exists (w +:+ a). split; [by constructor|].
    by rewrite app_assoc_str, <-Hr.
  - exists EmptyString. split; [constructor|done].
Qed.

(** With enough fuel, what [skip_all] leaves starts with no member of [ws]. *)
Lemma skip_all_done n ws s w :
  (∀ w', w' ∈ ws → nonempty w' = true) →
  String.length s ≤ n → w ∈ ws →
  startswith w (skip_all n ws s) = false.
Proof.
  intros Hne. revert s. induction n as [|n IH]; intros s Hn Hw; simpl.
  { destruct s; [|simpl in Hn; lia]. apply startswith_empty. by apply Hne. }
  destruct (skip_one ws s) as [r|] eqn:Hr; [|by eapply skip_one_none].
  apply skip_one_sound in Hr as (w' & Hw' & ->).
  apply IH; [|done]. rewrite str_length_app in Hn.
  specialize (Hne _ Hw'). destruct w'; [done|]. simpl in Hn. lia.
Qed.

Lemma whitespace_nonempty w : w ∈ whitespace → nonempty w = true.
Proof.
  revert w. apply Forall_forall. vm_compute. repeat constructor.
Qed.

Lemma rev_whitespace_nonempty w :
  w ∈ map string_rev whitespace → nonempty w = true.
Proof.
  intros (w0 & -> & Hw)%list_elem_of_fmap.
  by apply rev_nonempty, whitespace_nonempty.
Qed.

Lemma lstrip_spec (x : string) :
  ∃ a, blank a ∧ x = a +:+ lstrip x ∧
       ∀ w, w ∈ whitespace → startswith w (lstrip x) = false.
Proof.
  destruct (skip_all_split (String.length x) whitespace x) as (a & Ha & Hx).
  exists a. split_and!; [done..|].
  intros w Hw. by apply skip_all_done; [apply whitespace_nonempty|..].
Qed.

Lemma rstrip_spec (x : string) :
  ∃ b, blank b ∧ x = rstrip x +:+ b ∧
       ∀ w, w ∈ whitespace → endswith w (rstrip x) = false.
Proof.
  unfold rstrip, endswith.
  destruct (skip_all_split (String.length x) (map string_rev whitespace)
              (string_rev x)) as (a & Ha & Hx).
  exists (string_rev a). split_and!.
  - by apply made_of_rev.
  - by rewrite <-rev_app, <-Hx, rev_involutive.
  - intros w Hw. rewrite rev_involutive.
    apply skip_all_done; [apply rev_whitespace_nonempty|by rewrite rev_length|].
    apply list_elem_of_fmap. eauto.
Qed.

End Strip.

(** ** Further properties of the controller *)

(** X5: in every interleaving, with or without stop requests and
    failures, what a session has passed to the callback is nothing yet, or
    the "Starting scan" line of its command, then the stripped lines of a
    prefix of what its process wrote, in the order written, then at most
    one closing line: the stopped line, the completed line or an error
    line. *)
Theorem session_lines_shape s tid th :
  reachable s → threads s !! tid = Some th →
  session_log tid s = [] ∨
  ∃ xs t, session_log tid s = starting (th_command th) :: map strip xs ++ t ∧
          closing t ∧ delivered s tid xs.
Proof.
  intros Hr Hl. apply reachable_sound in Hr as (_ & _ & _ & _ & Hth).
  pose proof (Hth _ _ Hl) as Hi. unfold session_inv in Hi.
  assert (closing []) as Hc0 by (by left).
  destruct (th_pc th) as [| | |p|p l| |q| | | |e|pe| |e].
  - left. apply Hi.
  - right. exists [], []. destruct Hi as [-> _]. split_and!; [done|done|by left].
  - right. exists [], []. destruct Hi as [-> _]. split_and!; [done|done|by left].
  - right. destruct Hi as (pr & xs & Hp & Ho & Hw & ->).
    exists xs, []. rewrite app_nil_r. split_and!; [done|done|].
    right. by exists p, pr, ([] ++ p_pending pr).
  - right. destruct Hi as (pr & xs & Hp & Ho & Hw & ->).
    exists xs, []. rewrite app_nil_r. split_and!; [done|done|].
    right. by exists p, pr, ([l] ++ p_pending pr).
  - right. destruct Hi as (xs & -> & Hd). exists xs, [].
    by rewrite app_nil_r.
  - right. destruct Hi as (xs & -> & Hd). exists xs, [].
    by rewrite app_nil_r.
  - right. destruct Hi as (xs & -> & Hd). exists xs, [].
    by rewrite app_nil_r.
  - right. destruct Hi as (xs & -> & Hd%all_delivered_delivered).
    exists xs, []. by rewrite app_nil_r.
  - right. destruct Hi as (xs & -> & Hd%all_delivered_delivered).
    exists xs, []. by rewrite app_nil_r.
  - right. destruct Hi as (xs & -> & Hd). exists xs, [].
    by rewrite app_nil_r.
  - right. destruct Hi as (xs & t & -> & Hc & Hd & _). by exists xs, t.
  - right. destruct Hi as (xs & t & -> & Hc & Hd & _). by exists xs, t.
  - right. destruct Hi as (xs & t & -> & Hc & Hd & _). by exists xs, t.
Qed.

Lemma session_lines_shape_witness :
  reachable stopped_state ∧
  threads stopped_state !! 0 = Some (Thread ["nmap"; "10.0.0.5"] PcDone) ∧
  (session_log 0 stopped_state = [] ∨
   ∃ xs t, session_log 0 stopped_state =
             starting ["nmap"; "10.0.0.5"] :: map strip xs ++ t ∧
           closing t ∧ delivered stopped_state 0 xs).
Proof.
  assert (reachable stopped_state) as Hr
    by (exists stop_trace; vm_compute; reflexivity).
  split; [exact Hr|]. split; [reflexivity|].
  exact (session_lines_shape stopped_state 0
           (Thread ["nmap"; "10.0.0.5"] PcDone) Hr eq_refl).
Defined.

(** X6: whenever a thread stands at the test of line 69, before the
    completed line can be emitted, its process has exited, the pipe is
    empty, and the session has delivered the start line and every line the
    process wrote, stripped and in order. *)
Theorem completion_follows_all_output s tid th :
  reachable s → threads s !! tid = Some th → th_pc th = PcFinal →
  ∃ p pr, procs s !! p = Some pr ∧ p_owner pr = tid ∧
          p_cmd pr = th_command th ∧
          p_status pr = Exited ∧ p_pending pr = [] ∧
          session_log tid s =
            starting (th_command th) :: map strip (p_written pr).
Proof.
  intros Hr Hl Hpc.
  pose proof (reachable_commands_built _ Hr) as [_ Hcmd].
  apply reachable_sound in Hr as (_ & _ & _ & _ & Hth).
  pose proof (Hth _ _ Hl) as Hi. unfold session_inv in Hi. rewrite Hpc in Hi.
  destruct Hi as (xs & HL & p & pr & Hp & Ho & Hst & Hpe & Hw).
  exists p, pr. split_and!; try done; [|by rewrite Hw].
  destruct (Hcmd _ _ Hp) as (th' & Hl' & ->). congruence.
Qed.

Lemma completion_follows_all_output_witness :
  reachable final_state ∧
  threads final_state !! 0 = Some (Thread ["nmap"; "10.0.0.5"] PcFinal) ∧
  ∃ p pr, procs final_state !! p = Some pr ∧ p_owner pr = 0 ∧
          p_cmd pr = ["nmap"; "10.0.0.5"] ∧
          p_status pr = Exited ∧ p_pending pr = [] ∧
          session_log 0 final_state =
            starting ["nmap"; "10.0.0.5"] :: map strip (p_written pr).
Proof.
  assert (reachable final_state) as Hr.
  { exists (take 10 (normal_trace ("up" +:+ nl))). vm_compute. reflexivity. }
  split; [exact Hr|]. split; [reflexivity|].
  exact (completion_follows_all_output final_state 0
           (Thread ["nmap"; "10.0.0.5"] PcFinal) Hr eq_refl eq_refl).
Defined.

(** X7: in every reachable state without a live scan thread the process
    handle is [None], so [stop_scan] only reports "No active scan to
    stop.". *)
Theorem idle_controller_has_no_process s :
  reachable s → session_active s = false →
  scan_process s = None ∧
  stop_scan s = emit Fg "No active scan to stop." s.
Proof.
  intros Hr Hact. apply reachable_sound in Hr as (Hcur & Hh & _).
  assert (scan_process s = None) as Hsp.
  { destruct (scan_process s) as [p|] eqn:Hsp; [|done].
    destruct (Hh _ Hsp) as (pr & _ & Ho). pose proof (Hcur _ Ho) as Hst.
    unfold session_active in Hact. rewrite Hst in Hact. congruence. }
  split; [done|]. unfold stop_scan. by rewrite Hsp.
Qed.

Lemma idle_controller_has_no_process_witness :
  reachable stopped_state ∧ session_active stopped_state = false ∧
  scan_process stopped_state = None ∧
  stop_scan stopped_state = emit Fg "No active scan to stop." stopped_state.
Proof.
  assert (reachable stopped_state) as Hr
    by (exists stop_trace; vm_compute; reflexivity).
  split; [exact Hr|]. split; [reflexivity|].
  exact (idle_controller_has_no_process stopped_state Hr eq_refl).
Defined.

(** X8: the wait inside [stop_scan] always ends, by the exit of the
    process or by the timeout; when it ends, the foreground is idle again,
    the process handle is [None] and the stop event is clear; and unless
    the handle was cleared before the timeout fired, the process that was
    waited for is no longer running. *)
Theorem stop_scan_ends_the_process s p :
  reachable s → fg s = FgStopWait p →
  (∃ c s', step (FgResume c) s = Some s') ∧
  ∀ c s', step (FgResume c) s = Some s' →
    fg s' = FgIdle ∧ scan_process s' = None ∧ stop_event s' = false ∧
    (c = Quiet ∨ scan_process s ≠ None → proc_running s' p = false).
Proof.
  intros Hr Hfg. apply reachable_stop_inv in Hr as Hwait.
  destruct (Hwait _ Hfg) as [Hq _]. split.
  - destruct (proc_running s p) eqn:Hrun.
    + exists Timeout. simpl. rewrite Hfg. unfold terminate_end. rewrite Hrun.
      destruct (scan_process s); by eauto.
    + exists Quiet. simpl. rewrite Hfg. unfold terminate_end. rewrite Hrun.
      by eauto.
  - intros c s' Hs. simpl in Hs. rewrite Hfg in Hs.
    destruct (terminate_end c p s) as [[s1 o]|] eqn:Ht; simplify_eq/=.
    pose proof (terminate_end_frame _ _ _ _ _ Ht) as (_ & _ & _ & _ & Hsp & Hse).
    split_and!; try done. intros Hc.
    unfold terminate_end in Ht. destruct (proc_running s p) eqn:Hrun.
    + destruct c; try done.
      destruct (scan_process s) as [q|] eqn:Hq'; [|by destruct Hc].
      rewrite (Hq q eq_refl) in Ht. injection Ht as <- <-.
      apply proc_running_kill.
    + destruct c; try done. by injection Ht as <- <-.
Qed.

Lemma stop_scan_ends_the_process_witness :
  reachable stop_wait_state ∧ fg stop_wait_state = FgStopWait 0 ∧
  ∃ s', step (FgResume Timeout) stop_wait_state = Some s' ∧
        fg s' = FgIdle ∧ scan_process s' = None ∧ stop_event s' = false ∧
        proc_running s' 0 = false.
Proof.
  assert (reachable stop_wait_state) as Hr
    by (exists (take 8 stop_trace); vm_compute; reflexivity).
  split; [exact Hr|]. split; [reflexivity|].
  destruct (step (FgResume Timeout) stop_wait_state) as [s'|] eqn:Hs;
    [|vm_compute in Hs; discriminate].
  destruct (stop_scan_ends_the_process stop_wait_state 0 Hr eq_refl)
    as [_ H].
  destruct (H Timeout s' Hs) as (H1 & H2 & H3 & H4).
  exists s'. split_and!; try done. apply H4. right. discriminate.
Defined.

(** X10: every process the controller has spawned runs the command of the
    thread that spawned it, a list the builder returned to a [start_scan]
    call; its first argument is ["nmap"]. *)
Theorem spawned_command_is_built s p pr :
  reachable s → procs s !! p = Some pr →
  ∃ th rest, threads s !! p_owner pr = Some th ∧
             p_cmd pr = th_command th ∧ built (p_cmd pr) ∧
             p_cmd pr = "nmap" :: rest.
Proof.
  intros Hr Hp. apply reachable_commands_built in Hr as [Hth Hpr].
  destruct (Hpr _ _ Hp) as (th & Hl & Hc).
  pose proof (Hth _ _ Hl) as Hb. rewrite <-Hc in Hb.
  destruct (built_starts_with_nmap _ Hb) as [rest Hrest].
  by exists th, rest.
Qed.

Lemma spawned_command_is_built_witness :
  reachable stopped_state ∧
  ∃ pr, procs stopped_state !! 0 = Some pr ∧
        ∃ th rest, threads stopped_state !! p_owner pr = Some th ∧
                   p_cmd pr = th_command th ∧ built (p_cmd pr) ∧
                   p_cmd pr = "nmap" :: rest.
Proof.
  assert (reachable stopped_state) as Hr
    by (exists stop_trace; vm_compute; reflexivity).
  split; [exact Hr|].
  destruct (procs stopped_state !! 0) as [pr|] eqn:Hp;
    [|vm_compute in Hp; discriminate].
  exists pr. split; [reflexivity|].
  exact (spawned_command_is_built stopped_state 0 pr Hr Hp).
Defined.

(** X11: the foreground calls [start_scan] and [stop_scan] pass only two
    lines to the callback: "A scan is already in progress. Please wait."
    and "No active scan to stop.". *)
Theorem foreground_lines s line :
  reachable s → line ∈ fg_log s →
  line = "A scan is already in progress. Please wait." ∨
  line = "No active scan to stop.".
Proof.
  intros Hr. revert line. revert s Hr.
  apply (reachable_ind (fun s => ∀ line, line ∈ fg_log s → _)).
  { intros line H. by apply elem_of_nil in H. }
  intros ev s s' IH Hs line.
  destruct (step_fg_log _ _ _ Hs) as [-> | [-> | ->]]; [by apply IH|..];
    intros [H|H%list_elem_of_singleton]%elem_of_app; eauto.
Qed.

Lemma foreground_lines_witness :
  reachable busy_state ∧
  "No active scan to stop." ∈ fg_log busy_state ∧
  ("No active scan to stop." = "A scan is already in progress. Please wait." ∨
   "No active scan to stop." = "No active scan to stop.").
Proof.
  assert (reachable busy_state) as Hr.
  { exists [ CallStart (Some "10.0.0.5") None ∅;
             CallStart (Some "10.0.0.6") None ∅; CallStop ].
    vm_compute. reflexivity. }
  assert ("No active scan to stop." ∈ fg_log busy_state) as Hin.
  { vm_compute. apply elem_of_cons. right. apply elem_of_cons. by left. }
  split; [exact Hr|]. split; [exact Hin|].
  exact (foreground_lines busy_state _ Hr Hin).
Defined.

(** X12: what line 67 passes to the callback is the line without the
    whitespace characters at its two ends, and nothing else is removed: the
    line is a run of whitespace characters, then [strip line], then a run
    of whitespace characters, and [strip line] neither starts nor ends with
    a whitespace character. *)
Theorem strip_removes_whitespace (x : string) :
  ∃ a b, x = a +:+ strip x +:+ b ∧ blank a ∧ blank b ∧
         ∀ w, w ∈ whitespace →
              startswith w (strip x) = false ∧ endswith w (strip x) = false.
Proof.
  destruct (lstrip_spec x) as (a & Ha & Hx & Hstart).
  destruct (rstrip_spec (lstrip x)) as (b & Hb & Hl & Hend).
  exists a, b. fold (strip x) in Hl, Hend.
  split_and!; [by rewrite <-Hl|done..|].
  intros w Hw. split; [|by apply Hend].
  destruct (startswith w (strip x)) eqn:Hs; [|done].
  apply (startswith_app _ _ b) in Hs. rewrite <-Hl in Hs.
  by rewrite (Hstart _ Hw) in Hs.
Qed.

Lemma strip_removes_whitespace_witness :
  strip (utf8 [32; 194; 160; 56; 48; 32; 111; 112; 101; 110; 226; 128; 137; 13; 10])
    = "80 open" ∧
  ∃ a b, utf8 [32; 194; 160; 56; 48; 32; 111; 112; 101; 110; 226; 128; 137; 13; 10]
           = a +:+ "80 open" +:+ b ∧ blank a ∧ blank b ∧
         ∀ w, w ∈ whitespace →
              startswith w "80 open" = false ∧ endswith w "80 open" = false.
Proof.
  assert (strip (utf8 [32; 194; 160; 56; 48; 32; 111; 112; 101; 110;
                       226; 128; 137; 13; 10]) = "80 open") as H
    by (vm_compute; reflexivity).
  split; [exact H|].
  destruct (strip_removes_whitespace
              (utf8 [32; 194; 160; 56; 48; 32; 111; 112; 101; 110;
                     226; 128; 137; 13; 10])) as (a & b & Hx & Ha & Hb & Hw).
  rewrite H in Hx, Hw. by exists a, b.
Defined.

(** X14: a session spawns at most one process: two processes with the
    same owner are the same process. *)
Theorem one_process_per_session s p q pr pr' :
  reachable s →
  procs s !! p = Some pr → procs s !! q = Some pr' →
  p_owner pr = p_owner pr' → p = q.
Proof. intros Hr. by apply reachable_owns_once. Qed.

Lemma one_process_per_session_witness :
  reachable stopped_state ∧
  ∃ pr, procs stopped_state !! 0 = Some pr ∧ p_owner pr = p_owner pr ∧ 0 = 0.
Proof.
  assert (reachable stopped_state) as Hr
    by (exists stop_trace; vm_compute; reflexivity).
  split; [exact Hr|].
  destruct (procs stopped_state !! 0) as [pr|] eqn:Hp;
    [|vm_compute in Hp; discriminate].
  exists pr. split; [reflexivity|]. split; [reflexivity|].
  exact (one_process_per_session stopped_state 0 0 pr pr Hr Hp Hp eq_refl).
Defined.
